(** * Multi-thread train scheduler (A2/mts.c): model and verification

    The C program simulates trains that load concurrently and then cross a
    single track one at a time.  All scheduling state is a set of globals
    guarded by [scheduling_mutex]; every access happens in a critical
    section, so the model below runs the program as a sequence of atomic
    monitor sections (one [event] per section).

    Data is kept as the C code has it: [int] and [int64_t] values are [Z]
    (the counters never leave the range of [int], see
    [run_counters_bounded]), the linked ready queues are lists of nodes
    with [NULL] as the empty list, and the [trains] array is a list
    indexed by train id. *)

From Stdlib Require Import ZArith List Ascii String Sorted Permutation Lia Bool.
From stdpp Require Import base tactics option list numbers.

Local Open Scope Z_scope.

(** ** Data model *)

(** [direction_t] (mts.c:13-16). *)
Inductive direction_t : Type := EAST | WEST.

#[global] Instance direction_eq_dec : EqDecision direction_t.
Proof. solve_decision. Defined.

(** [train_t] (mts.c:19-29).  The pthread handles [tid] and [cv] carry no
    data the scheduler reads and are left out. *)
Record train_t : Type := mk_train {
  id : Z;
  dir : direction_t;
  high_priority : Z;
  loading_time : Z;
  crossing_time : Z;
  ready_time_ns : Z;
  my_turn : Z
}.

(** [ready_node] (mts.c:32-36); the [next] pointer is the tail of the list. *)
Record ready_node : Type := mk_node {
  idx : Z;
  ready_ns : Z
}.

(** The scheduling globals (mts.c:48-58). *)
Record sched : Type := mk_sched {
  east_high : list ready_node;
  east_low : list ready_node;
  west_high : list ready_node;
  west_low : list ready_node;
  track_in_use : Z;
  trains_finished : Z;
  have_ever_crossed : Z;
  last_dir : direction_t;
  same_dir_streak : Z
}.

(** A [ready_node **] argument always points at one of the four queue
    heads. *)
Inductive queue_ref : Type := EAST_HIGH | EAST_LOW | WEST_HIGH | WEST_LOW.

#[global] Instance queue_ref_eq_dec : EqDecision queue_ref.
Proof. solve_decision. Defined.

Definition deref (q : queue_ref) (s : sched) : list ready_node :=
  match q with
  | EAST_HIGH => east_high s
  | EAST_LOW => east_low s
  | WEST_HIGH => west_high s
  | WEST_LOW => west_low s
  end.

Definition assign (q : queue_ref) (l : list ready_node) (s : sched) : sched :=
  match q with
  | EAST_HIGH => mk_sched l (east_low s) (west_high s) (west_low s)
      (track_in_use s) (trains_finished s) (have_ever_crossed s) (last_dir s) (same_dir_streak s)
  | EAST_LOW => mk_sched (east_high s) l (west_high s) (west_low s)
      (track_in_use s) (trains_finished s) (have_ever_crossed s) (last_dir s) (same_dir_streak s)
  | WEST_HIGH => mk_sched (east_high s) (east_low s) l (west_low s)
      (track_in_use s) (trains_finished s) (have_ever_crossed s) (last_dir s) (same_dir_streak s)
  | WEST_LOW => mk_sched (east_high s) (east_low s) (west_high s) l
      (track_in_use s) (trains_finished s) (have_ever_crossed s) (last_dir s) (same_dir_streak s)
  end.

(** C truth value of an [int]. *)
Definition truthy (x : Z) : bool := negb (x =? 0).

(** C truth value of a pointer: non-[NULL]. *)
Definition nonnull {A : Type} (p : list A) : bool :=
  match p with [] => false | _ :: _ => true end.

Definition INT64_MAX : Z := 9223372036854775807.

(** ** Ready-queue utilities *)

(** [ready_comes_before] (mts.c:427-435). *)
Definition ready_comes_before (idxA nsA idxB nsB : Z) : bool :=
  if nsA <? nsB then true
  else if nsA >? nsB then false
  else idxA <? idxB.

(** [queue_push] (mts.c:394-412): the walk with [prev]/[cur] stops at the
    first node the new one comes before and links the new node there. *)
Fixpoint queue_push (head : list ready_node) (i ns : Z) : list ready_node :=
  match head with
  | [] => [mk_node i ns]
  | cur :: next =>
      if ready_comes_before i ns (idx cur) (ready_ns cur)
      then mk_node i ns :: cur :: next
      else cur :: queue_push next i ns
  end.

(** [queue_pop] (mts.c:415-424): the returned pair is the result and the
    new head. *)
Definition queue_pop (head : list ready_node) : Z * list ready_node :=
  match head with
  | [] => (-1, [])
  | n :: next => (idx n, next)
  end.

(** [peek_idx] and [peek_ns] (mts.c:512-518). *)
Definition peek_idx (h : list ready_node) : Z :=
  match h with [] => -1 | n :: _ => idx n end.

Definition peek_ns (h : list ready_node) : Z :=
  match h with [] => INT64_MAX | n :: _ => ready_ns n end.

(** [queue_push(q, ...)] and [queue_pop(q)] through a queue pointer. *)
Definition push_at (q : queue_ref) (i ns : Z) (s : sched) : sched :=
  assign q (queue_push (deref q s) i ns) s.

Definition pop_at (q : queue_ref) (s : sched) : Z * sched :=
  let '(i, next) := queue_pop (deref q s) in (i, assign q next s).

(** ** Scheduler helpers *)

(** [any_ready] (mts.c:437-439). *)
Definition any_ready (s : sched) : bool :=
  nonnull (east_high s) || nonnull (east_low s) ||
  nonnull (west_high s) || nonnull (west_low s).

(** [choose_from_pair] (mts.c:441-459). *)
Definition choose_from_pair (A B : queue_ref) (s : sched) : Z * sched :=
  let ai := peek_idx (deref A s) in
  let bi := peek_idx (deref B s) in
  if (ai >=? 0) && (bi >=? 0) then
    if ready_comes_before ai (peek_ns (deref A s)) bi (peek_ns (deref B s))
    then pop_at A s
    else pop_at B s
  else if ai >=? 0 then pop_at A s
  else if bi >=? 0 then pop_at B s
  else (-1, s).

(** The block that occurs three times in [choose_next_idx_full]:
    [if (H || L) { if (H) return queue_pop(&H); if (L) return queue_pop(&L); }].
    [None] means that control falls out of the block without returning. *)
Definition pop_high_then_low (H L : queue_ref) (s : sched) : option (Z * sched) :=
  if nonnull (deref H s) || nonnull (deref L s) then
    if nonnull (deref H s) then Some (pop_at H s)
    else if nonnull (deref L s) then Some (pop_at L s)
    else None
  else None.

(** First block of [choose_next_idx_full] (mts.c:462-473). *)
Definition rule_bootstrap (s : sched) : option (Z * sched) :=
  if negb (truthy (have_ever_crossed s))
  then pop_high_then_low WEST_HIGH WEST_LOW s
  else None.

(** Second block (mts.c:475-499). *)
Definition rule_balancing (s : sched) : option (Z * sched) :=
  let want_opposite := same_dir_streak s >=? 2 in
  if want_opposite then
    match last_dir s with
    | EAST => pop_high_then_low WEST_HIGH WEST_LOW s
    | WEST => pop_high_then_low EAST_HIGH EAST_LOW s
    end
  else None.

(** Last block (mts.c:501-508). *)
Definition rule_normal (s : sched) : Z * sched :=
  if nonnull (east_high s) || nonnull (west_high s)
  then choose_from_pair EAST_HIGH WEST_HIGH s
  else if nonnull (east_low s) || nonnull (west_low s)
  then choose_from_pair EAST_LOW WEST_LOW s
  else (-1, s).

(** What [choose_next_idx_full] runs once the first block is passed
    (mts.c:475-508). *)
Definition choose_after_bootstrap (s : sched) : Z * sched :=
  match rule_balancing s with
  | Some r => r
  | None => rule_normal s
  end.

(** [choose_next_idx_full] (mts.c:461-509). *)
Definition choose_next_idx_full (s : sched) : Z * sched :=
  match rule_bootstrap s with
  | Some r => r
  | None => choose_after_bootstrap s
  end.

(** ** Threads

    Every train thread and the dispatcher touch the globals only while
    holding [scheduling_mutex], and give it up only at [pthread_cond_wait]
    or [pthread_mutex_unlock].  A run of the program is therefore a
    sequence of the atomic sections below, interleaved in any order. *)

(** Where a train thread stands in [train_thread]. *)
Inductive train_pc : Type :=
  | Loading    (* before the lock at mts.c:268 *)
  | Waiting    (* in the wait loop, mts.c:278-280 *)
  | Crossing   (* between the unlock at mts.c:282 and the lock at mts.c:294 *)
  | Done.      (* returned *)

Record worker : Type := mk_worker {
  w_train : train_t;
  w_pc : train_pc
}.

Record system : Type := mk_system {
  sch : sched;
  trains : list worker;
  dispatcher_running : bool
}.

Definition n_trains (sys : system) : Z := Z.of_nat (length (trains sys)).

Definition set_ready_time_ns (ns : Z) (t : train_t) : train_t :=
  mk_train (id t) (dir t) (high_priority t) (loading_time t) (crossing_time t) ns (my_turn t).

Definition set_my_turn (v : Z) (t : train_t) : train_t :=
  mk_train (id t) (dir t) (high_priority t) (loading_time t) (crossing_time t) (ready_time_ns t) v.

(** The queue a train enqueues itself on (mts.c:269-275). *)
Definition queue_for (t : train_t) : queue_ref :=
  match dir t with
  | EAST => if truthy (high_priority t) then EAST_HIGH else EAST_LOW
  | WEST => if truthy (high_priority t) then WEST_HIGH else WEST_LOW
  end.

(** [train_thread], first critical section (mts.c:268-277). *)
Definition train_enqueue (t : train_t) (s : sched) : sched :=
  push_at (queue_for t) (id t) (ready_time_ns t) s.

(** [train_thread], last critical section (mts.c:294-307). *)
Definition train_release (t : train_t) (s : sched) : sched :=
  let '(last, streak) :=
    if decide (dir t = last_dir s)
    then (last_dir s, same_dir_streak s + 1)
    else (dir t, 1) in
  mk_sched (east_high s) (east_low s) (west_high s) (west_low s)
    0 (trains_finished s + 1) 1 last streak.

(** The globals before any thread runs (mts.c:48-58). *)
Definition init_sched : sched := mk_sched [] [] [] [] 0 0 0 EAST 0.

Definition init_system (roster : list train_t) : system :=
  mk_system init_sched (map (fun t => mk_worker t Loading) roster) true.

(** One atomic section of one thread. *)
Inductive event : Type :=
  | EvReady (i : nat) (ns : Z)
      (* train [i] read the clock as [ns], took the lock, enqueued itself
         and blocked in the wait loop (mts.c:258-279) *)
  | EvEnter (i : nat)
      (* train [i] found [my_turn] set and left the wait loop (mts.c:278-282) *)
  | EvLeave (i : nat)
      (* train [i] finished crossing and did its bookkeeping (mts.c:294-308) *)
  | EvDispatch
      (* the dispatcher found a ready train and a free track and ran one
         selection (mts.c:326-338) *)
  | EvDispatcherExit.
      (* the dispatcher found all trains finished (mts.c:325, 329-341) *)

(** [trains[idx].my_turn = 1] (mts.c:336).  An index outside the array is
    undefined behaviour in C: the model has no next state there. *)
Definition grant (ix : Z) (ws : list worker) : option (list worker) :=
  if (0 <=? ix) && (ix <? Z.of_nat (length ws)) then
    match ws !! Z.to_nat ix with
    | Some w => Some (<[Z.to_nat ix := mk_worker (set_my_turn 1 (w_train w)) (w_pc w)]> ws)
    | None => None
    end
  else None.

(** [dispatcher_main], one pass of the outer loop body once the inner wait
    loop lets it through (mts.c:326-338). *)
Definition dispatcher_main (sys : system) : option system :=
  if dispatcher_running sys
     && (trains_finished (sch sys) <? n_trains sys)
     && any_ready (sch sys)
     && negb (truthy (track_in_use (sch sys)))
  then
    let '(ix, s) := choose_next_idx_full (sch sys) in
    if ix >=? 0 then
      match grant ix (trains sys) with
      | Some ws =>
          Some (mk_system
                  (mk_sched (east_high s) (east_low s) (west_high s) (west_low s)
                     1 (trains_finished s) (have_ever_crossed s) (last_dir s)
                     (same_dir_streak s))
                  ws true)
      | None => None
      end
    else Some (mk_system s (trains sys) true)
  else None.

(** [train_thread] (mts.c:250-310), section by section. *)
Definition train_thread (i : nat) (ev : event) (sys : system) : option system :=
  match trains sys !! i with
  | None => None
  | Some w =>
      match ev, w_pc w with
      | EvReady _ ns, Loading =>
          let t := set_ready_time_ns ns (w_train w) in
          Some (mk_system (train_enqueue t (sch sys))
                  (<[i := mk_worker t Waiting]> (trains sys))
                  (dispatcher_running sys))
      | EvEnter _, Waiting =>
          if truthy (my_turn (w_train w))
          then Some (mk_system (sch sys)
                       (<[i := mk_worker (w_train w) Crossing]> (trains sys))
                       (dispatcher_running sys))
          else None
      | EvLeave _, Crossing =>
          Some (mk_system (train_release (w_train w) (sch sys))
                  (<[i := mk_worker (w_train w) Done]> (trains sys))
                  (dispatcher_running sys))
      | _, _ => None
      end
  end.

(** The step function of the whole program: [None] when the event cannot
    happen in the state. *)
Definition step (sys : system) (ev : event) : option system :=
  match ev with
  | EvReady i _ | EvEnter i | EvLeave i => train_thread i ev sys
  | EvDispatch => dispatcher_main sys
  | EvDispatcherExit =>
      if dispatcher_running sys && (trains_finished (sch sys) >=? n_trains sys)
      then Some (mk_system (sch sys) (trains sys) false)
      else None
  end.

Fixpoint run (sys : system) (tr : list event) : option system :=
  match tr with
  | [] => Some sys
  | ev :: tr' =>
      match step sys ev with
      | Some sys' => run sys' tr'
      | None => None
      end
  end.

(** Directions of the crossings completed along a trace, most recent
    first. *)
Fixpoint completed (sys : system) (tr : list event) (acc : list direction_t)
  : list direction_t :=
  match tr with
  | [] => acc
  | ev :: tr' =>
      match step sys ev with
      | Some sys' =>
          match ev with
          | EvLeave i =>
              match trains sys !! i with
              | Some w => completed sys' tr' (dir (w_train w) :: acc)
              | None => completed sys' tr' acc
              end
          | _ => completed sys' tr' acc
          end
      | None => acc
      end
  end.

(** ** Reading the roster

    The input file is the list of its bytes.  The C library calls are
    modelled after the C standard: [fgets] with a 256-byte buffer, and
    [sscanf] with the one format the program uses. *)

Definition NUL : ascii := "000"%char.
Definition TAB : ascii := "009"%char.
Definition NEWLINE : ascii := "010"%char.

(** The string a [char] buffer holds: the bytes before the first NUL. *)
Fixpoint c_str (buf : list ascii) : list ascii :=
  match buf with
  | [] => []
  | c :: rest => if Ascii.eqb c NUL then [] else c :: c_str rest
  end.

(** One [fgets(buf, n + 1, f)] on a stream that is not at its end: at most
    [n] bytes, stopping after a newline.  The result is the bytes stored
    and the rest of the stream. *)
Fixpoint fgets_bytes (n : nat) (stream : list ascii) : list ascii * list ascii :=
  match n, stream with
  | O, _ => ([], stream)
  | _, [] => ([], [])
  | S n', c :: rest =>
      if Ascii.eqb c NEWLINE then ([c], rest)
      else let '(l, r) := fgets_bytes n' rest in (c :: l, r)
  end.

(** The strings successive [fgets(buf, 256, f)] calls leave in [buf] until
    [fgets] returns [NULL].  Each call takes at least one byte, so
    [length stream] calls are enough ([fgets_all_fuel]). *)
Fixpoint fgets_loop (fuel : nat) (stream : list ascii) : list (list ascii) :=
  match fuel, stream with
  | O, _ => []
  | _, [] => []
  | S fuel', _ :: _ =>
      let '(l, r) := fgets_bytes 255 stream in
      c_str l :: fgets_loop fuel' r
  end.

Definition fgets_all (stream : list ascii) : list (list ascii) :=
  fgets_loop (length stream) stream.

(** [isspace] and [isdigit] in the C locale. *)
Definition isspace (c : ascii) : bool :=
  let n := nat_of_ascii c in
  (n =? 32)%nat || ((9 <=? n)%nat && (n <=? 13)%nat).

Definition isdigit (c : ascii) : bool :=
  let n := nat_of_ascii c in (48 <=? n)%nat && (n <=? 57)%nat.

Definition digit_value (c : ascii) : Z := Z.of_nat (nat_of_ascii c) - 48.

(** White space in a format: skip any amount of it. *)
Fixpoint skip_space (s : list ascii) : list ascii :=
  match s with
  | [] => []
  | c :: rest => if isspace c then skip_space rest else s
  end.

(** The digits of a [%d] field, most significant first. *)
Fixpoint scan_digits (acc : Z) (s : list ascii) : Z * list ascii :=
  match s with
  | [] => (acc, [])
  | c :: rest =>
      if isdigit c then scan_digits (10 * acc + digit_value c) rest
      else (acc, s)
  end.

(** The input item of a [%d] conversion: white space, an optional sign,
    at least one digit.  The value is that of the numeral, before it is
    stored. *)
Definition scan_numeral (s : list ascii) : option (Z * list ascii) :=
  let s0 := skip_space s in
  let '(negative, s1) :=
    match s0 with
    | c :: rest =>
        if Ascii.eqb c "-" then (true, rest)
        else if Ascii.eqb c "+" then (false, rest)
        else (false, s0)
    | [] => (false, s0)
    end in
  match s1 with
  | c :: _ =>
      if isdigit c then
        let '(v, rest) := scan_digits 0 s1 in
        Some (if negative : bool then - v else v, rest)
      else None
  | [] => None
  end.

Definition LONG_MAX : Z := 9223372036854775807.
Definition LONG_MIN : Z := -9223372036854775808.

(** [strtol] on a numeral of value [v]: a value outside [long] (64 bits)
    is replaced by the nearest bound. *)
Definition strtol_clamp (v : Z) : Z :=
  if v >? LONG_MAX then LONG_MAX
  else if v <? LONG_MIN then LONG_MIN
  else v.

(** The conversion [(int) l] of a [long]: its low 32 bits, read in two's
    complement. *)
Definition int_of_long (l : Z) : Z :=
  (l + 2147483648) mod 4294967296 - 2147483648.

(** A [%d] conversion stores into an [int].  The GNU C library, which
    the program is built against, converts the input item with [strtol]
    and assigns the [long] (64 bits) to the [int] object: a numeral that
    does not fit an [int] is stored modulo 2^32, and one that does not
    fit a [long] is clamped first.  So [4294967297] is stored as 1. *)
Definition scan_int (s : list ascii) : option (Z * list ascii) :=
  match scan_numeral s with
  | Some (v, rest) => Some (int_of_long (strtol_clamp v), rest)
  | None => None
  end.

(** What [sscanf(line, " %c %d %d", &c, &load, &cross)] returns and
    stores. *)
Inductive scan_result : Type :=
  | ScanEOF
  | Scan1 (c : ascii)
  | Scan2 (c : ascii) (load : Z)
  | Scan3 (c : ascii) (load cross : Z).

Definition sscanf_c_d_d (line : list ascii) : scan_result :=
  match skip_space line with
  | [] => ScanEOF
  | c :: s1 =>
      match scan_int (skip_space s1) with
      | None => Scan1 c
      | Some (load, s2) =>
          match scan_int (skip_space s2) with
          | None => Scan2 c load
          | Some (cross, _) => Scan3 c load cross
          end
      end
  end.

(** [parse_line] (mts.c:213-240): [Some t] is return value 0 with [*t]
    filled in, [None] is return value -1. *)
Definition parse_line (line : list ascii) (id : Z) : option train_t :=
  match sscanf_c_d_d line with
  | Scan3 c load cross =>
      if (load <? 1) || (load >? 99) || (cross <? 1) || (cross >? 99) then None
      else
        let mk high d := Some (mk_train id d high load cross (-1) 0) in
        if Ascii.eqb c "e" then mk 0 EAST
        else if Ascii.eqb c "E" then mk 1 EAST
        else if Ascii.eqb c "w" then mk 0 WEST
        else if Ascii.eqb c "W" then mk 1 WEST
        else None
  | _ => None
  end.

(** The test of the counting loop (mts.c:160-166): after blanks and tabs
    the line ends. *)
Fixpoint skip_blanks (p : list ascii) : list ascii :=
  match p with
  | [] => []
  | c :: rest =>
      if Ascii.eqb c " " || Ascii.eqb c TAB then skip_blanks rest else p
  end.

Definition blank_line (buf : list ascii) : bool :=
  match skip_blanks buf with
  | [] => true
  | c :: _ => Ascii.eqb c NEWLINE
  end.

(** The counting loop (mts.c:159-168). *)
Fixpoint count_lines (lines : list (list ascii)) (count : Z) : Z :=
  match lines with
  | [] => count
  | buf :: rest =>
      if blank_line buf then count_lines rest count
      else count_lines rest (count + 1)
  end.

(** The parsing loop (mts.c:186-195): the trains parsed so far are [acc];
    the result is the filled array, or the number and text of the line
    [parse_line] rejected. *)
Fixpoint parse_loop (count id : Z) (lines : list (list ascii)) (acc : list train_t)
  : list train_t + Z * list ascii :=
  if id <? count then
    match lines with
    | [] => inl acc
    | buf :: rest =>
        match parse_line buf id with
        | Some t => parse_loop count (id + 1) rest (acc ++ [t])
        | None => inr (id + 1, buf)
        end
    end
  else inl acc.

(** Why [load_trains] failed, as written to [stderr]. *)
Inductive load_diag : Type :=
  | DiagOpen                                   (* perror("fopen") *)
  | DiagCalloc                                 (* "Calloc failed in load_trains" *)
  | DiagParse (line_no : Z) (buf : list ascii). (* "Parse error on line %d: %s" *)

(** The result of [load_trains]: its return value, the globals it sets
    ([None] is a [NULL] array) and its diagnostic. *)
Record load_outcome : Type := mk_load {
  load_ret : Z;
  g_trains : option (list train_t);
  g_n_trains : Z;
  load_stderr : option load_diag
}.

(** [load_trains] (mts.c:148-205).  [file] is [None] when [fopen] fails,
    [calloc_ok] tells whether the allocation succeeds. *)
Definition load_trains (file : option (list ascii)) (calloc_ok : bool) : load_outcome :=
  match file with
  | None => mk_load (-1) None 0 (Some DiagOpen)
  | Some stream =>
      let lines := fgets_all stream in
      let count := count_lines lines 0 in
      if count =? 0 then mk_load 0 None 0 None
      else if negb calloc_ok then mk_load (-1) None 0 (Some DiagCalloc)
      else
        match parse_loop count 0 lines [] with
        | inr (line_no, buf) => mk_load (-1) None 0 (Some (DiagParse line_no buf))
        | inl ts => mk_load 0 (Some ts) (Z.of_nat (length ts)) None
        end
  end.

(** ** Process start-up and exit *)

(** What the environment decides for [main]. *)
Record environment : Type := mk_env {
  argc : Z;
  output_opens : bool;                 (* fopen("output.txt", "w") *)
  input_file : option (list ascii);    (* the bytes of argv[1], if it opens *)
  calloc_succeeds : bool;
  dispatcher_starts : bool;            (* pthread_create of the dispatcher *)
  trains_started : nat                 (* how many train threads can be created *)
}.

(** How far [main] gets before it waits for its threads. *)
Inductive startup : Type :=
  | ExitBeforeThreads (code : Z)
      (* returned at mts.c:89, 95, 101 or 111: no thread exists *)
  | ExitAfterCancel (code : Z) (started : nat)
      (* returned at mts.c:126 after joining the [started] trains created *)
  | Launched (roster : list train_t).
      (* every thread created; [main] is at the joins of mts.c:130-135 *)

(** [main] up to the joins (mts.c:86-128). *)
Definition main_startup (e : environment) : startup :=
  if negb (argc e =? 2) then ExitBeforeThreads 1
  else if negb (output_opens e) then ExitBeforeThreads 1
  else
    let l := load_trains (input_file e) (calloc_succeeds e) in
    if negb (load_ret l =? 0) then ExitBeforeThreads 1
    else if negb (dispatcher_starts e) then ExitBeforeThreads 1
    else
      let roster := default [] (g_trains l) in
      if (Z.of_nat (trains_started e) <? g_n_trains l)
      then ExitAfterCancel 1 (trains_started e)
      else Launched roster.

(** [main] after the joins (mts.c:130-139): it returns 0 once every train
    thread and the dispatcher have returned, and is blocked before. *)
Definition main_exit (sys : system) : option Z :=
  if forallb (fun w => match w_pc w with Done => true | _ => false end) (trains sys)
     && negb (dispatcher_running sys)
  then Some 0 else None.

(** ** Specification vocabulary *)

(** The order of the ready queues: by [ready_ns], then by [idx]. *)
Definition key_lt (a b : ready_node) : Prop :=
  ready_ns a < ready_ns b \/ (ready_ns a = ready_ns b /\ idx a < idx b).

Definition key_le (a b : ready_node) : Prop :=
  ready_ns a < ready_ns b \/ (ready_ns a = ready_ns b /\ idx a <= idx b).

Definition ascending (q : list ready_node) : Prop := StronglySorted key_le q.

(** All waiting nodes of the four queues. *)
Definition queued (s : sched) : list ready_node :=
  east_high s ++ east_low s ++ west_high s ++ west_low s.

(** Queue ids are array indices, so they are never negative. *)
Definition ids_nonneg (s : sched) : Prop :=
  forall m, In m (queued s) -> 0 <= idx m.

Definition opposite (d : direction_t) : direction_t :=
  match d with EAST => WEST | WEST => EAST end.

Definition high_queue (d : direction_t) : queue_ref :=
  match d with EAST => EAST_HIGH | WEST => WEST_HIGH end.

Definition low_queue (d : direction_t) : queue_ref :=
  match d with EAST => EAST_LOW | WEST => WEST_LOW end.

(** The first block of [choose_next_idx_full] returns. *)
Definition bootstrap_applies (s : sched) : Prop :=
  have_ever_crossed s = 0 /\ (west_high s <> [] \/ west_low s <> []).

(** The second block of [choose_next_idx_full] returns. *)
Definition balancing_applies (s : sched) : Prop :=
  2 <= same_dir_streak s /\
  (deref (high_queue (opposite (last_dir s))) s <> [] \/
   deref (low_queue (opposite (last_dir s))) s <> []).

(** The selection pops the head [n] of queue [q]. *)
Definition pops (s : sched) (q : queue_ref) (n : ready_node) : Prop :=
  exists next, deref q s = n :: next /\
               choose_next_idx_full s = (idx n, assign q next s).

(** [n] is a head of queue [A] or [B] whose key is least among the heads
    of the two, and the selection pops it. *)
Definition pops_least_head (s : sched) (A B : queue_ref) : Prop :=
  exists q n, (q = A \/ q = B) /\ pops s q n /\
    forall q' m next, (q' = A \/ q' = B) -> deref q' s = m :: next -> key_le n m.

(** A train holds the track from the grant until its bookkeeping: its
    [my_turn] is set and it has not returned. *)
Definition holder (w : worker) : Prop :=
  my_turn (w_train w) <> 0 /\ (w_pc w = Waiting \/ w_pc w = Crossing).

(** What [load_trains] hands over: ids are array indices and no train has
    been granted yet. *)
Definition roster_ok (roster : list train_t) : Prop :=
  forall i t, roster !! i = Some t -> id t = Z.of_nat i /\ my_turn t = 0.

Definition is_done (w : worker) : bool :=
  match w_pc w with Done => true | _ => false end.

Fixpoint finished_count (ws : list worker) : Z :=
  match ws with
  | [] => 0
  | w :: rest => (if is_done w then 1 else 0) + finished_count rest
  end.

(** The invariant of the monitor: it holds whenever no thread is inside a
    critical section. *)
Record inv (s : sched) (ws : list worker) : Prop := mk_inv {
  inv_flag : track_in_use s = 0 \/ track_in_use s = 1;
  inv_id : forall i w, ws !! i = Some w -> id (w_train w) = Z.of_nat i;
  inv_loading : forall i w, ws !! i = Some w -> w_pc w = Loading ->
    my_turn (w_train w) = 0;
  inv_crossing : forall i w, ws !! i = Some w -> w_pc w = Crossing ->
    my_turn (w_train w) <> 0;
  inv_queued : forall q m, In m (deref q s) ->
    exists i w, idx m = Z.of_nat i /\ ws !! i = Some w /\
                w_pc w = Waiting /\ my_turn (w_train w) = 0 /\
                ready_time_ns (w_train w) = ready_ns m /\
                queue_for (w_train w) = q;
  inv_nodup : forall q, NoDup (map idx (deref q s));
  inv_sorted : forall q, ascending (deref q s);
  inv_free : track_in_use s = 0 -> forall i w, ws !! i = Some w -> ~ holder w;
  inv_held : track_in_use s <> 0 -> exists i w, ws !! i = Some w /\ holder w;
  inv_unique : forall i j wi wj, ws !! i = Some wi -> ws !! j = Some wj ->
    holder wi -> holder wj -> i = j;
  inv_finished : trains_finished s = finished_count ws;
  inv_counters : 0 <= same_dir_streak s <= trains_finished s /\
    ((have_ever_crossed s = 0 /\ trains_finished s = 0) \/
     (have_ever_crossed s = 1 /\ 0 < trains_finished s))
}.

Definition invariant (sys : system) : Prop := inv (sch sys) (trains sys).

(** Length of the run of [d] at the front of a history. *)
Fixpoint run_length (d : direction_t) (h : list direction_t) : Z :=
  match h with
  | [] => 0
  | d' :: h' => if decide (d' = d) then 1 + run_length d h' else 0
  end.

(** Number of consecutive crossings sharing the most recent direction, in
    a history that lists the most recent crossing first. *)
Definition latest_run (h : list direction_t) : Z :=
  match h with
  | [] => 0
  | d :: _ => run_length d h
  end.

(** The streak bookkeeping agrees with a history of completed crossings. *)
Definition streak_counts (h : list direction_t) (s : sched) : Prop :=
  same_dir_streak s = latest_run h /\
  (forall d h', h = d :: h' -> last_dir s = d).

(** The priority class of a queue. *)
Definition is_high (q : queue_ref) : bool :=
  match q with
  | EAST_HIGH | WEST_HIGH => true
  | EAST_LOW | WEST_LOW => false
  end.

(** *** Roster lines *)









(** *** Roster lines as [sscanf] reads them *)











(** * Verification *)

(** ** Ready queues *)

Lemma ready_comes_before_spec (a b : ready_node) :
  ready_comes_before (idx a) (ready_ns a) (idx b) (ready_ns b) = true <-> key_lt a b.
Proof.
  unfold ready_comes_before, key_lt.
  destruct (Z.ltb_spec (ready_ns a) (ready_ns b)); [intuition lia|].
  destruct (Z.gtb_spec (ready_ns a) (ready_ns b)); [intuition (lia || discriminate)|].
  rewrite Z.ltb_lt. lia.
Qed.

Lemma ready_comes_before_false (a b : ready_node) :
  ready_comes_before (idx a) (ready_ns a) (idx b) (ready_ns b) = false <-> key_le b a.
Proof.
  rewrite <- not_true_iff_false, ready_comes_before_spec.
  unfold key_lt, key_le. lia.
Qed.

Lemma key_le_refl (a : ready_node) : key_le a a.
Proof. unfold key_le. lia. Qed.

Lemma key_le_trans (a b c : ready_node) : key_le a b -> key_le b c -> key_le a c.
Proof. unfold key_le. lia. Qed.

Lemma key_lt_le (a b : ready_node) : key_lt a b -> key_le a b.
Proof. unfold key_lt, key_le. lia. Qed.

Lemma key_le_antisym (a b : ready_node) : key_le a b -> key_le b a -> a = b.
Proof.
  destruct a, b. unfold key_le. simpl. intros. f_equal; lia.
Qed.

Lemma queue_push_perm (q : list ready_node) (i ns : Z) :
  Permutation (queue_push q i ns) (mk_node i ns :: q).
Proof.
  induction q as [|cur next IH]; simpl.
  - reflexivity.
  - destruct (ready_comes_before i ns (idx cur) (ready_ns cur)).
    + reflexivity.
    + rewrite IH. apply perm_swap.
Qed.

Lemma queue_push_In (q : list ready_node) (i ns : Z) (m : ready_node) :
  In m (queue_push q i ns) <-> m = mk_node i ns \/ In m q.
Proof.
  split; intros H.
  - apply (Permutation_in _ (queue_push_perm q i ns)) in H.
    destruct H; [left; congruence | right; assumption].
  - apply (Permutation_in _ (Permutation_sym (queue_push_perm q i ns))).
    destruct H; [left; congruence | right; assumption].
Qed.

Lemma queue_push_ascending (q : list ready_node) (i ns : Z) :
  ascending q -> ascending (queue_push q i ns).
Proof.
  unfold ascending. induction q as [|cur next IH]; simpl; intros Hs.
  - repeat constructor.
  - apply StronglySorted_inv in Hs as [Hnext Hcur].
    destruct (ready_comes_before i ns (idx cur) (ready_ns cur)) eqn:E.
    + apply (ready_comes_before_spec (mk_node i ns) cur) in E.
      apply key_lt_le in E.
      constructor; [constructor; assumption|].
      constructor; [assumption|].
      eapply Forall_impl; [|exact Hcur].
      intros m Hm. eapply key_le_trans; eassumption.
    + apply (ready_comes_before_false (mk_node i ns) cur) in E.
      constructor; [auto|].
      rewrite Forall_forall. intros m Hm.
      apply queue_push_In in Hm as [->|Hm]; [assumption|].
      rewrite Forall_forall in Hcur. auto.
Qed.

Lemma ascending_head_min (n : ready_node) (next : list ready_node) :
  ascending (n :: next) -> forall m, In m (n :: next) -> key_le n m.
Proof.
  intros Hs m [<-|Hm].
  - apply key_le_refl.
  - apply StronglySorted_inv in Hs as [_ Hn].
    rewrite Forall_forall in Hn. auto.
Qed.

Lemma ascending_tail (n : ready_node) (next : list ready_node) :
  ascending (n :: next) -> ascending next.
Proof. intros Hs. apply StronglySorted_inv in Hs. tauto. Qed.

(** C6.  [queue_push] keeps a ready queue in ascending (ready_ns, id)
    order and adds exactly the new pair; [queue_pop] on an empty queue
    returns -1 and leaves it empty; on a non-empty queue it returns the
    id of an element that is minimal for the order and removes that
    element, the rest staying in order. *)
Theorem queue_push_pop_ordered (q : list ready_node) (i ns : Z) :
  ascending q ->
  (ascending (queue_push q i ns) /\
   Permutation (queue_push q i ns) (mk_node i ns :: q)) /\
  (q = [] -> queue_pop q = (-1, [])) /\
  (q <> [] ->
   exists n, In n q /\ (forall m, In m q -> key_le n m) /\
             fst (queue_pop q) = idx n /\
             q = n :: snd (queue_pop q) /\
             ascending (snd (queue_pop q))).
Proof.
  intros Hs. split; [|split].
  - split; [apply queue_push_ascending; assumption | apply queue_push_perm].
  - intros ->. reflexivity.
  - destruct q as [|n next]; [congruence|]. intros _.
    exists n. simpl. repeat split.
    + left; reflexivity.
    + apply ascending_head_min. assumption.
    + eapply ascending_tail; eassumption.
Qed.

Lemma queue_push_pop_ordered_witness :
  let q := [mk_node 2 10; mk_node 0 30] in
  (ascending (queue_push q 1 10) /\
   Permutation (queue_push q 1 10) (mk_node 1 10 :: q)) /\
  (q = [] -> queue_pop q = (-1, [])) /\
  (q <> [] ->
   exists n, In n q /\ (forall m, In m q -> key_le n m) /\
             fst (queue_pop q) = idx n /\
             q = n :: snd (queue_pop q) /\
             ascending (snd (queue_pop q))).
Proof.
  apply (queue_push_pop_ordered [mk_node 2 10; mk_node 0 30] 1 10).
  repeat constructor; unfold key_le; simpl; lia.
Defined.

(** ** Selection *)

Lemma nonnull_true {A : Type} (l : list A) : nonnull l = true <-> l <> [].
Proof. destruct l; simpl; split; congruence. Qed.

Lemma nonnull_false {A : Type} (l : list A) : nonnull l = false <-> l = [].
Proof. destruct l; simpl; split; congruence. Qed.

Lemma deref_assign (q q' : queue_ref) (l : list ready_node) (s : sched) :
  deref q (assign q' l s) = if decide (q = q') then l else deref q s.
Proof. destruct q, q'; reflexivity. Qed.

Lemma deref_assign_same (q : queue_ref) (l : list ready_node) (s : sched) :
  deref q (assign q l s) = l.
Proof. destruct q; reflexivity. Qed.

Lemma assign_deref (q : queue_ref) (s : sched) : assign q (deref q s) s = s.
Proof. destruct q, s; reflexivity. Qed.

Lemma pop_at_cons (q : queue_ref) (s : sched) (n : ready_node) (next : list ready_node) :
  deref q s = n :: next -> pop_at q s = (idx n, assign q next s).
Proof. unfold pop_at. intros ->. reflexivity. Qed.

Lemma truthy_false (x : Z) : truthy x = false <-> x = 0.
Proof. unfold truthy. rewrite negb_false_iff. apply Z.eqb_eq. Qed.

Lemma truthy_true (x : Z) : truthy x = true <-> x <> 0.
Proof. unfold truthy. rewrite negb_true_iff. apply Z.eqb_neq. Qed.

(** The shared block returns the head of [H] when [H] is not empty,
    otherwise the head of [L] when [L] is not empty, and falls through
    when both are empty. *)
Lemma pop_high_then_low_high (H L : queue_ref) (s : sched) n next :
  deref H s = n :: next ->
  pop_high_then_low H L s = Some (idx n, assign H next s).
Proof.
  intros E. unfold pop_high_then_low. rewrite E. simpl.
  f_equal. apply pop_at_cons. assumption.
Qed.

Lemma pop_high_then_low_low (H L : queue_ref) (s : sched) n next :
  deref H s = [] -> deref L s = n :: next ->
  pop_high_then_low H L s = Some (idx n, assign L next s).
Proof.
  intros EH EL. unfold pop_high_then_low. rewrite EH, EL. simpl.
  f_equal. apply pop_at_cons. assumption.
Qed.

Lemma pop_high_then_low_none (H L : queue_ref) (s : sched) :
  deref H s = [] -> deref L s = [] -> pop_high_then_low H L s = None.
Proof. intros EH EL. unfold pop_high_then_low. rewrite EH, EL. reflexivity. Qed.

Lemma rule_bootstrap_none (s : sched) :
  ~ bootstrap_applies s -> rule_bootstrap s = None.
Proof.
  unfold bootstrap_applies, rule_bootstrap. intros Hn.
  destruct (truthy (have_ever_crossed s)) eqn:E; [reflexivity|]. simpl.
  apply truthy_false in E.
  apply pop_high_then_low_none; simpl.
  - destruct (west_high s); [reflexivity|]. exfalso. apply Hn. split; [assumption|]. left; congruence.
  - destruct (west_low s); [reflexivity|]. exfalso. apply Hn. split; [assumption|]. right; congruence.
Qed.

Lemma rule_balancing_none (s : sched) :
  ~ balancing_applies s -> rule_balancing s = None.
Proof.
  unfold balancing_applies, rule_balancing. intros Hn.
  destruct (Z.geb_spec (same_dir_streak s) 2) as [Hge|Hlt]; [|reflexivity].
  assert (deref (high_queue (opposite (last_dir s))) s = [] /\
          deref (low_queue (opposite (last_dir s))) s = []) as [EH EL].
  { split.
    - destruct (deref (high_queue _) s) eqn:E; [reflexivity|].
      exfalso. apply Hn. split; [lia|]. left. congruence.
    - destruct (deref (low_queue _) s) eqn:E; [reflexivity|].
      exfalso. apply Hn. split; [lia|]. right. congruence. }
  destruct (last_dir s); simpl in EH, EL;
    apply pop_high_then_low_none; assumption.
Qed.

(** The comparison of two queue heads in [choose_from_pair], for queues
    whose ids are not negative. *)
Lemma choose_from_pair_spec (A B : queue_ref) (s : sched) :
  (forall m, In m (deref A s) -> 0 <= idx m) ->
  (forall m, In m (deref B s) -> 0 <= idx m) ->
  (deref A s = [] /\ deref B s = [] /\ choose_from_pair A B s = (-1, s)) \/
  (exists q n next, (q = A \/ q = B) /\ deref q s = n :: next /\
     choose_from_pair A B s = (idx n, assign q next s) /\
     forall q' m next', (q' = A \/ q' = B) -> deref q' s = m :: next' -> key_le n m).
Proof.
  intros HA HB. unfold choose_from_pair.
  destruct (deref A s) as [|a nextA] eqn:EA; destruct (deref B s) as [|b nextB] eqn:EB; simpl.
  - left. auto.
  - right. assert (0 <= idx b) by (apply HB; left; reflexivity).
    destruct (Z.geb_spec (idx b) 0); [|lia].
    exists B, b, nextB. repeat split; auto.
    + apply pop_at_cons; assumption.
    + intros q' m next' [->| ->] E; [congruence|].
      rewrite EB in E. inversion E; subst. apply key_le_refl.
  - right. assert (0 <= idx a) by (apply HA; left; reflexivity).
    destruct (Z.geb_spec (idx a) 0); [|lia].
    exists A, a, nextA. repeat split; auto.
    + apply pop_at_cons; assumption.
    + intros q' m next' [->| ->] E; [|congruence].
      rewrite EA in E. inversion E; subst. apply key_le_refl.
  - right. assert (0 <= idx a) by (apply HA; left; reflexivity).
    assert (0 <= idx b) by (apply HB; left; reflexivity).
    destruct (Z.geb_spec (idx a) 0); [|lia].
    destruct (Z.geb_spec (idx b) 0); [|lia]. simpl.
    destruct (ready_comes_before (idx a) (ready_ns a) (idx b) (ready_ns b)) eqn:E.
    + apply ready_comes_before_spec, key_lt_le in E.
      exists A, a, nextA. repeat split; auto.
      * apply pop_at_cons; assumption.
      * intros q' m next' [->| ->] E'; rewrite ?EA, ?EB in E'; inversion E'; subst;
          [apply key_le_refl | assumption].
    + apply ready_comes_before_false in E.
      exists B, b, nextB. repeat split; auto.
      * apply pop_at_cons; assumption.
      * intros q' m next' [->| ->] E'; rewrite ?EA, ?EB in E'; inversion E'; subst;
          [assumption | apply key_le_refl].
Qed.

Lemma ids_nonneg_deref (s : sched) (q : queue_ref) :
  ids_nonneg s -> forall m, In m (deref q s) -> 0 <= idx m.
Proof.
  intros H m Hm. apply H. unfold queued. rewrite !in_app_iff.
  destruct q; simpl in Hm; tauto.
Qed.

Lemma pop_high_then_low_some (H L : queue_ref) (s : sched) (r : Z * sched) :
  pop_high_then_low H L s = Some r ->
  exists q n next, (q = H \/ q = L) /\ deref q s = n :: next /\
                   r = (idx n, assign q next s).
Proof.
  destruct (deref H s) as [|n next] eqn:EH.
  - destruct (deref L s) as [|n next] eqn:EL.
    + rewrite pop_high_then_low_none by assumption. discriminate.
    + rewrite (pop_high_then_low_low H L s n next) by assumption.
      intros [= <-]. exists L, n, next. auto.
  - rewrite (pop_high_then_low_high H L s n next) by assumption.
    intros [= <-]. exists H, n, next. auto.
Qed.

Lemma rule_normal_spec (s : sched) :
  ids_nonneg s ->
  (any_ready s = false /\ rule_normal s = (-1, s)) \/
  (exists A B q n next,
     ((A = EAST_HIGH /\ B = WEST_HIGH) \/
      (A = EAST_LOW /\ B = WEST_LOW /\ east_high s = [] /\ west_high s = [])) /\
     (q = A \/ q = B) /\ deref q s = n :: next /\
     rule_normal s = (idx n, assign q next s) /\
     forall q' m next', (q' = A \/ q' = B) -> deref q' s = m :: next' -> key_le n m).
Proof.
  intros Hids. unfold rule_normal, any_ready.
  destruct (nonnull (east_high s) || nonnull (west_high s)) eqn:EH.
  - right.
    destruct (choose_from_pair_spec EAST_HIGH WEST_HIGH s) as [(E1 & E2 & _)|(q & n & next & Hq & E & Hc & Hmin)];
      try (apply ids_nonneg_deref; assumption).
    + simpl in E1, E2. rewrite E1, E2 in EH. discriminate.
    + exists EAST_HIGH, WEST_HIGH, q, n, next. auto 10.
  - apply orb_false_iff in EH as [E1 E2].
    apply nonnull_false in E1, E2.
    destruct (nonnull (east_low s) || nonnull (west_low s)) eqn:EL.
    + right.
      destruct (choose_from_pair_spec EAST_LOW WEST_LOW s) as [(E3 & E4 & _)|(q & n & next & Hq & E & Hc & Hmin)];
        try (apply ids_nonneg_deref; assumption).
      * simpl in E3, E4. rewrite E3, E4 in EL. discriminate.
      * exists EAST_LOW, WEST_LOW, q, n, next. auto 10.
    + left. apply orb_false_iff in EL as [E3 E4].
      rewrite E1, E2, E3, E4. auto.
Qed.

(** Whatever rule fires, the selection either finds every queue empty
    and returns -1 without touching the state, or pops the head of one
    queue. *)
Lemma choose_next_spec (s : sched) :
  ids_nonneg s ->
  (any_ready s = false /\ choose_next_idx_full s = (-1, s)) \/
  (exists q n, pops s q n).
Proof.
  intros Hids. unfold pops, choose_next_idx_full, choose_after_bootstrap.
  destruct (rule_bootstrap s) as [r|] eqn:E1.
  { unfold rule_bootstrap in E1.
    destruct (negb (truthy (have_ever_crossed s))); [|discriminate].
    apply pop_high_then_low_some in E1 as (q & n & next & _ & E & ->).
    right. exists q, n, next. auto. }
  destruct (rule_balancing s) as [r|] eqn:E2.
  { unfold rule_balancing in E2.
    destruct (same_dir_streak s >=? 2); [|discriminate].
    destruct (last_dir s);
      apply pop_high_then_low_some in E2 as (q & n & next & _ & E & ->);
      right; exists q, n, next; auto. }
  destruct (rule_normal_spec s Hids) as [?|(A & B & q & n & next & _ & _ & E & Hc & _)].
  - left. assumption.
  - right. exists q, n, next. auto.
Qed.

Lemma pops_queue_unique (s : sched) (q q' : queue_ref) (n n' : ready_node) :
  pops s q n -> pops s q' n' -> q = q'.
Proof.
  intros (next & E & Hc) (next' & E' & Hc').
  rewrite Hc in Hc'. injection Hc' as _ Hs.
  destruct (decide (q = q')) as [|Hne]; [assumption|exfalso].
  assert (deref q (assign q next s) = deref q (assign q' next' s)) as Hd by congruence.
  rewrite !deref_assign in Hd.
  destruct (decide (q = q)); [|congruence].
  destruct (decide (q = q')); [congruence|].
  rewrite E in Hd. apply (f_equal (@length _)) in Hd. simpl in Hd. lia.
Qed.

(** C3.  When the bootstrap rule does not apply and the streak has
    reached 2, the selection looks at the two queues of the direction
    opposite to [last_dir]: it pops the head of the High one if that is
    not empty, else the head of the Low one if that is not empty (in both
    cases whatever the same-direction queues hold), and when both are
    empty it does what the normal rule does. *)
Theorem balancing_rule (s : sched) :
  ~ bootstrap_applies s -> 2 <= same_dir_streak s ->
  let H := high_queue (opposite (last_dir s)) in
  let L := low_queue (opposite (last_dir s)) in
  (forall n next, deref H s = n :: next ->
     choose_next_idx_full s = (idx n, assign H next s)) /\
  (forall n next, deref H s = [] -> deref L s = n :: next ->
     choose_next_idx_full s = (idx n, assign L next s)) /\
  (deref H s = [] -> deref L s = [] ->
     choose_next_idx_full s = rule_normal s).
Proof.
  intros Hboot Hstreak H L.
  unfold choose_next_idx_full, choose_after_bootstrap.
  rewrite (rule_bootstrap_none s Hboot).
  unfold rule_balancing.
  destruct (Z.geb_spec (same_dir_streak s) 2); [|lia].
  subst H L. destruct (last_dir s); simpl; repeat split; intros.
  all: first
    [ erewrite pop_high_then_low_high by eassumption; reflexivity
    | erewrite pop_high_then_low_low by eassumption; reflexivity
    | rewrite pop_high_then_low_none by assumption; reflexivity ].
Qed.

Lemma balancing_rule_witness :
  let s := mk_sched [mk_node 3 40] [] [] [mk_node 5 90] 0 2 1 EAST 2 in
  choose_next_idx_full s = (5, assign WEST_LOW [] s).
Proof.
  intros s.
  assert (Hb : ~ bootstrap_applies s) by (intros [H _]; discriminate H).
  assert (Hs : 2 <= same_dir_streak s) by (simpl; lia).
  exact (proj1 (proj2 (balancing_rule s Hb Hs)) (mk_node 5 90) [] eq_refl eq_refl).
Defined.

(** The normal rule, case by case; shared by the statements about
    priority and about ties. *)
Lemma normal_rule_cases (s : sched) :
  ~ bootstrap_applies s -> ~ balancing_applies s -> ids_nonneg s ->
  (east_high s <> [] \/ west_high s <> [] ->
     pops_least_head s EAST_HIGH WEST_HIGH /\
     forall q n, pops s q n -> q = EAST_HIGH \/ q = WEST_HIGH) /\
  (east_high s = [] -> west_high s = [] ->
   east_low s <> [] \/ west_low s <> [] ->
     pops_least_head s EAST_LOW WEST_LOW).
Proof.
  intros Hboot Hbal Hids.
  assert (Hc : choose_next_idx_full s = rule_normal s).
  { unfold choose_next_idx_full, choose_after_bootstrap.
    rewrite (rule_bootstrap_none s Hboot), (rule_balancing_none s Hbal). reflexivity. }
  destruct (rule_normal_spec s Hids)
    as [[Hnone _]|(A & B & q & n & next & HAB & Hq & E & Hr & Hmin)].
  - unfold any_ready in Hnone.
    repeat (apply orb_false_iff in Hnone as [Hnone ?]).
    repeat match goal with H : nonnull _ = false |- _ => apply nonnull_false in H end.
    split; intros; intuition congruence.
  - assert (Hpops : pops s q n) by (exists next; split; congruence).
    split.
    + intros Hhigh.
      destruct HAB as [[-> ->]|(_ & _ & E1 & E2)]; [|intuition congruence].
      split.
      * exists q, n. auto.
      * intros q' n' Hp. rewrite (pops_queue_unique s q' q n' n Hp Hpops). assumption.
    + intros E1 E2 Hlow.
      destruct HAB as [[-> ->]|(-> & -> & _ & _)].
      * destruct Hq as [-> | ->]; simpl in E; congruence.
      * exists q, n. auto.
Qed.

(** C4.  When neither the bootstrap nor the balancing rule applies: if a
    High queue is not empty the selection pops the head of East-High or
    West-High whose (ready_ns, id) key is least among the High heads, and
    never pops a Low queue; when both High queues are empty it does the
    same on the two Low queues. *)
Theorem normal_rule (s : sched) :
  ~ bootstrap_applies s -> ~ balancing_applies s -> ids_nonneg s ->
  (east_high s <> [] \/ west_high s <> [] ->
     pops_least_head s EAST_HIGH WEST_HIGH /\
     forall q n, pops s q n -> q = EAST_HIGH \/ q = WEST_HIGH) /\
  (east_high s = [] -> west_high s = [] ->
   east_low s <> [] \/ west_low s <> [] ->
     pops_least_head s EAST_LOW WEST_LOW).
Proof. exact (normal_rule_cases s). Qed.

Lemma normal_rule_witness :
  let s := mk_sched [mk_node 3 40] [mk_node 0 10] [mk_node 2 40] [] 0 1 1 EAST 1 in
  pops_least_head s EAST_HIGH WEST_HIGH /\
  forall q n, pops s q n -> q = EAST_HIGH \/ q = WEST_HIGH.
Proof.
  intros s.
  assert (Hb : ~ bootstrap_applies s) by (intros [H _]; discriminate H).
  assert (Hl : ~ balancing_applies s) by (intros [H _]; simpl in H; lia).
  assert (Hi : ids_nonneg s).
  { intros m Hm. simpl in Hm.
    destruct Hm as [<-|[<-|[<-|[]]]]; simpl; lia. }
  apply (proj1 (normal_rule s Hb Hl Hi)).
  left. discriminate.
Defined.

(** ** The monitor invariant *)

Lemma assign_fields (q : queue_ref) (l : list ready_node) (s : sched) :
  track_in_use (assign q l s) = track_in_use s /\
  trains_finished (assign q l s) = trains_finished s /\
  have_ever_crossed (assign q l s) = have_ever_crossed s /\
  last_dir (assign q l s) = last_dir s /\
  same_dir_streak (assign q l s) = same_dir_streak s.
Proof. destruct q; simpl; auto. Qed.

Lemma lookup_map_worker (roster : list train_t) (i : nat) :
  map (fun t => mk_worker t Loading) roster !! i =
  option_map (fun t => mk_worker t Loading) (roster !! i).
Proof.
  revert i. induction roster as [|t r IH]; intros [|i]; simpl; auto.
Qed.

Lemma finished_count_insert (ws : list worker) (i : nat) (w w' : worker) :
  ws !! i = Some w ->
  finished_count (<[i := w']> ws) =
  finished_count ws - (if is_done w then 1 else 0) + (if is_done w' then 1 else 0).
Proof.
  revert i. induction ws as [|x ws IH]; intros [|i] H; simpl in *; try discriminate.
  - injection H as ->. lia.
  - rewrite (IH i H). lia.
Qed.

Lemma finished_count_bounds (ws : list worker) :
  0 <= finished_count ws <= Z.of_nat (length ws).
Proof.
  induction ws as [|w ws IH]; simpl; [lia|].
  destruct (is_done w); lia.
Qed.

Lemma finished_count_loading (roster : list train_t) :
  finished_count (map (fun t => mk_worker t Loading) roster) = 0.
Proof. induction roster; simpl; auto. Qed.

Lemma queue_for_set_ready_time_ns (ns : Z) (t : train_t) :
  queue_for (set_ready_time_ns ns t) = queue_for t.
Proof. reflexivity. Qed.

Lemma inv_ids_nonneg (s : sched) (ws : list worker) : inv s ws -> ids_nonneg s.
Proof.
  intros I m Hm. unfold queued in Hm. rewrite !in_app_iff in Hm.
  assert (exists q, In m (deref q s)) as [q Hq].
  { destruct Hm as [?|[?|[?|?]]];
      [exists EAST_HIGH | exists EAST_LOW | exists WEST_HIGH | exists WEST_LOW]; assumption. }
  destruct (inv_queued s ws I q m Hq) as (i & _ & -> & _). lia.
Qed.

Lemma inv_init (roster : list train_t) :
  roster_ok roster -> invariant (init_system roster).
Proof.
  intros Hok. unfold invariant, init_system. simpl.
  assert (Hl : forall i w, map (fun t => mk_worker t Loading) roster !! i = Some w ->
                 exists t, roster !! i = Some t /\ w = mk_worker t Loading).
  { intros i w. rewrite lookup_map_worker.
    destruct (roster !! i) as [t|]; simpl; [|discriminate].
    intros [= <-]. eauto. }
  constructor; simpl.
  - auto.
  - intros i w H. apply Hl in H as (t & Ht & ->). apply (Hok i t Ht).
  - intros i w H _. apply Hl in H as (t & Ht & ->). apply (Hok i t Ht).
  - intros i w H Hpc. apply Hl in H as (t & Ht & ->). discriminate.
  - intros [] m [].
  - intros []; constructor.
  - intros []; constructor.
  - intros _ i w H [_ [Hpc|Hpc]]; apply Hl in H as (t & Ht & ->); discriminate.
  - congruence.
  - intros i j wi wj H _ [_ [Hpc|Hpc]]; apply Hl in H as (t & Ht & ->); discriminate.
  - symmetry. apply finished_count_loading.
  - lia.
Qed.

(** Case analysis on a lookup in an array updated at one index. *)
Ltac lookup_cases H :=
  let Hne := fresh "Hne" in
  apply list_lookup_insert_Some in H as [(<- & <- & _)|(Hne & H)].

Lemma inv_ready (s : sched) (ws : list worker) (i : nat) (ns : Z) (w : worker) :
  inv s ws -> ws !! i = Some w -> w_pc w = Loading ->
  inv (train_enqueue (set_ready_time_ns ns (w_train w)) s)
      (<[i := mk_worker (set_ready_time_ns ns (w_train w)) Waiting]> ws).
Proof.
  intros I Hw Hpc.
  assert (Hi := lookup_lt_Some _ _ _ Hw).
  assert (Hid : id (w_train w) = Z.of_nat i) by (eapply inv_id; eauto).
  assert (Hturn : my_turn (w_train w) = 0) by (eapply inv_loading; eauto).
  set (t := set_ready_time_ns ns (w_train w)).
  set (q0 := queue_for (w_train w)).
  assert (Hfresh : forall q m, In m (deref q s) -> idx m <> Z.of_nat i).
  { intros q m Hm E.
    destruct (inv_queued s ws I q m Hm) as (j & wj & Ej & Hj & Hpcj & _).
    assert (j = i) by lia. subst j. congruence. }
  unfold train_enqueue, push_at. fold q0.
  change (queue_for t) with q0. change (id t) with (id (w_train w)).
  change (ready_time_ns t) with ns.
  destruct (assign_fields q0 (queue_push (deref q0 s) (id (w_train w)) ns) s)
    as (Ef & En & Ec & El & Es).
  constructor; rewrite ?Ef, ?En, ?Ec, ?El, ?Es.
  - apply (inv_flag s ws I).
  - intros j wj H. lookup_cases H; [exact Hid | eapply inv_id; eauto].
  - intros j wj H Hp. lookup_cases H; [discriminate | eapply inv_loading; eauto].
  - intros j wj H Hp. lookup_cases H; [discriminate | eapply inv_crossing; eauto].
  - intros q m Hm. rewrite deref_assign in Hm.
    assert (Hold : In m (deref q s) ->
      exists j wj, idx m = Z.of_nat j /\
        <[i := mk_worker t Waiting]> ws !! j = Some wj /\ w_pc wj = Waiting /\
        my_turn (w_train wj) = 0 /\ ready_time_ns (w_train wj) = ready_ns m /\
        queue_for (w_train wj) = q).
    { intros Hin. pose proof (Hfresh q m Hin) as Hne.
      destruct (inv_queued s ws I q m Hin) as (j & wj & Ej & Hj & Hrest).
      exists j, wj. split; [assumption|]. split; [|assumption].
      rewrite list_lookup_insert_ne by (intros ->; lia). assumption. }
    destruct (decide (q = q0)) as [->|Hq]; [|auto].
    apply queue_push_In in Hm as [->|Hm]; [|auto].
    exists i, (mk_worker t Waiting). simpl.
    rewrite list_lookup_insert_eq by assumption. auto 10.
  - intros q. rewrite deref_assign.
    destruct (decide (q = q0)) as [->|Hq]; [|apply (inv_nodup s ws I)].
    rewrite (Permutation_map idx (queue_push_perm (deref q0 s) (id (w_train w)) ns)).
    simpl. apply NoDup_cons_2; [|apply (inv_nodup s ws I)].
    rewrite list_elem_of_In, in_map_iff. intros (m & Em & Hm).
    apply (Hfresh q0 m Hm). congruence.
  - intros q. rewrite deref_assign.
    destruct (decide (q = q0)) as [->|Hq]; [|apply (inv_sorted s ws I)].
    apply queue_push_ascending. apply (inv_sorted s ws I).
  - intros Hfree j wj H. lookup_cases H.
    + intros [Hmt _]. simpl in Hmt. congruence.
    + eapply inv_free; eauto.
  - intros Hheld. destruct (inv_held s ws I Hheld) as (j & wj & Hj & Hh).
    exists j, wj. split; [|assumption].
    rewrite list_lookup_insert_ne; [assumption|].
    intros ->. rewrite Hw in Hj. injection Hj as <-.
    destruct Hh as [_ [?|?]]; congruence.
  - intros j k wj wk Hj Hk Hhj Hhk.
    lookup_cases Hj; [destruct Hhj as [Hmt _]; simpl in Hmt; congruence|].
    lookup_cases Hk; [destruct Hhk as [Hmt _]; simpl in Hmt; congruence|].
    eapply inv_unique; eauto.
  - rewrite (finished_count_insert ws i w _ Hw). unfold is_done. rewrite Hpc. simpl.
    rewrite (inv_finished s ws I). lia.
  - apply (inv_counters s ws I).
Qed.

Lemma inv_enter (s : sched) (ws : list worker) (i : nat) (w : worker) :
  inv s ws -> ws !! i = Some w -> w_pc w = Waiting -> my_turn (w_train w) <> 0 ->
  inv s (<[i := mk_worker (w_train w) Crossing]> ws).
Proof.
  intros I Hw Hpc Hturn.
  assert (Hi := lookup_lt_Some _ _ _ Hw).
  assert (Hh : holder w) by (split; auto).
  assert (Hback : forall j wj,
    <[i := mk_worker (w_train w) Crossing]> ws !! j = Some wj -> holder wj ->
    exists wj', ws !! j = Some wj' /\ holder wj').
  { intros j wj H Hj. lookup_cases H; eauto. }
  constructor.
  - apply (inv_flag s ws I).
  - intros j wj H. lookup_cases H; [simpl|]; eapply (inv_id s ws I); eauto.
  - intros j wj H Hp. lookup_cases H; [discriminate | eapply inv_loading; eauto].
  - intros j wj H Hp. lookup_cases H; [assumption | eapply inv_crossing; eauto].
  - intros q m Hm.
    destruct (inv_queued s ws I q m Hm) as (j & wj & Ej & Hj & Hpcj & Hmt & Hrest).
    exists j, wj. split; [assumption|]. split; [|auto].
    rewrite list_lookup_insert_ne; [assumption|].
    intros ->. congruence.
  - apply (inv_nodup s ws I).
  - apply (inv_sorted s ws I).
  - intros Hfree. exfalso. exact (inv_free s ws I Hfree i w Hw Hh).
  - intros _. exists i, (mk_worker (w_train w) Crossing).
    rewrite list_lookup_insert_eq by assumption.
    split; [reflexivity|]. split; simpl; auto.
  - intros j k wj wk Hj Hk Hhj Hhk.
    destruct (Hback j wj Hj Hhj) as (wj' & Hj' & Hhj').
    destruct (Hback k wk Hk Hhk) as (wk' & Hk' & Hhk').
    eapply (inv_unique s ws I); eauto.
  - rewrite (finished_count_insert ws i w _ Hw). unfold is_done. rewrite Hpc. simpl.
    rewrite (inv_finished s ws I). lia.
  - apply (inv_counters s ws I).
Qed.

Lemma deref_train_release (q : queue_ref) (t : train_t) (s : sched) :
  deref q (train_release t s) = deref q s.
Proof.
  unfold train_release. destruct (decide (dir t = last_dir s)); destruct q; reflexivity.
Qed.

Lemma train_release_fields (t : train_t) (s : sched) :
  track_in_use (train_release t s) = 0 /\
  trains_finished (train_release t s) = trains_finished s + 1 /\
  have_ever_crossed (train_release t s) = 1 /\
  ((dir t = last_dir s /\ last_dir (train_release t s) = last_dir s /\
    same_dir_streak (train_release t s) = same_dir_streak s + 1) \/
   (dir t <> last_dir s /\ last_dir (train_release t s) = dir t /\
    same_dir_streak (train_release t s) = 1)).
Proof.
  unfold train_release. destruct (decide (dir t = last_dir s)); simpl; auto 10.
Qed.

Lemma inv_leave (s : sched) (ws : list worker) (i : nat) (w : worker) :
  inv s ws -> ws !! i = Some w -> w_pc w = Crossing ->
  inv (train_release (w_train w) s) (<[i := mk_worker (w_train w) Done]> ws).
Proof.
  intros I Hw Hpc.
  assert (Hi := lookup_lt_Some _ _ _ Hw).
  assert (Hh : holder w) by (split; [eapply inv_crossing; eauto | auto]).
  destruct (train_release_fields (w_train w) s) as (Ef & En & Ec & Hstreak).
  assert (Hnone : forall j wj,
    <[i := mk_worker (w_train w) Done]> ws !! j = Some wj -> ~ holder wj).
  { intros j wj H Hj. lookup_cases H.
    - destruct Hj as [_ [?|?]]; discriminate.
    - apply Hne. symmetry. eapply (inv_unique s ws I); eauto. }
  constructor; rewrite ?Ef, ?En, ?Ec.
  - auto.
  - intros j wj H. lookup_cases H; [simpl|]; eapply (inv_id s ws I); eauto.
  - intros j wj H Hp. lookup_cases H; [discriminate | eapply inv_loading; eauto].
  - intros j wj H Hp. lookup_cases H; [discriminate | eapply inv_crossing; eauto].
  - intros q m Hm. rewrite deref_train_release in Hm.
    destruct (inv_queued s ws I q m Hm) as (j & wj & Ej & Hj & Hpcj & Hrest).
    exists j, wj. split; [assumption|]. split; [|auto].
    rewrite list_lookup_insert_ne; [assumption|].
    intros ->. congruence.
  - intros q. rewrite deref_train_release. apply (inv_nodup s ws I).
  - intros q. rewrite deref_train_release. apply (inv_sorted s ws I).
  - intros _. exact Hnone.
  - congruence.
  - intros j k wj wk Hj _ Hhj _. exfalso. exact (Hnone j wj Hj Hhj).
  - rewrite (finished_count_insert ws i w _ Hw). unfold is_done. rewrite Hpc. simpl.
    rewrite (inv_finished s ws I). lia.
  - pose proof (inv_counters s ws I) as [Hb _].
    split; [|right; lia].
    destruct Hstreak as [(_ & _ & ->)|(_ & _ & ->)]; lia.
Qed.

(** The worker array after [trains[idx].my_turn = 1]. *)
Lemma grant_in_range (ws : list worker) (j : nat) (wj : worker) :
  ws !! j = Some wj ->
  grant (Z.of_nat j) ws =
  Some (<[j := mk_worker (set_my_turn 1 (w_train wj)) (w_pc wj)]> ws).
Proof.
  intros Hj. pose proof (lookup_lt_Some _ _ _ Hj). unfold grant.
  destruct (Z.leb_spec 0 (Z.of_nat j)); [|lia].
  destruct (Z.ltb_spec (Z.of_nat j) (Z.of_nat (length ws))); [|lia].
  simpl. rewrite Nat2Z.id, Hj. reflexivity.
Qed.

Lemma inv_grant (s : sched) (ws : list worker) (q : queue_ref)
    (n : ready_node) (next : list ready_node) (j : nat) (wj : worker) :
  inv s ws -> track_in_use s = 0 -> deref q s = n :: next ->
  idx n = Z.of_nat j -> ws !! j = Some wj ->
  let s1 := assign q next s in
  inv (mk_sched (east_high s1) (east_low s1) (west_high s1) (west_low s1)
         1 (trains_finished s1) (have_ever_crossed s1) (last_dir s1)
         (same_dir_streak s1))
      (<[j := mk_worker (set_my_turn 1 (w_train wj)) (w_pc wj)]> ws).
Proof.
  intros I Hfree E Ej Hj s1.
  assert (Hlt := lookup_lt_Some _ _ _ Hj).
  assert (Hn : In n (deref q s)) by (rewrite E; left; reflexivity).
  destruct (inv_queued s ws I q n Hn) as (j' & wj' & Ej' & Hj' & Hpc & Hmt & _ & Hq).
  assert (j' = j) by lia. subst j'. rewrite Hj in Hj'. injection Hj' as <-.
  destruct (assign_fields q next s) as (Ef & En & Ec & El & Es).
  assert (Hd : forall q', deref q'
     (mk_sched (east_high s1) (east_low s1) (west_high s1) (west_low s1)
         1 (trains_finished s1) (have_ever_crossed s1) (last_dir s1)
         (same_dir_streak s1)) = if decide (q' = q) then next else deref q' s).
  { intros q'. rewrite <- deref_assign. destruct q'; reflexivity. }
  assert (Hold : forall q' m, In m (if decide (q' = q) then next else deref q' s) ->
            In m (deref q' s) /\ idx m <> Z.of_nat j).
  { intros q' m Hm. destruct (decide (q' = q)) as [->|Hne].
    - split; [rewrite E; right; assumption|].
      pose proof (inv_nodup s ws I q) as Hnd. rewrite E in Hnd. simpl in Hnd.
      apply NoDup_cons_1_1 in Hnd. intros Em. apply Hnd.
      rewrite list_elem_of_In, in_map_iff. exists m. split; [congruence|assumption].
    - split; [assumption|]. intros Em.
      destruct (inv_queued s ws I q' m Hm) as (k & wk & Ek & Hk & _ & _ & _ & Hqk).
      assert (k = j) by lia. subst k. congruence. }
  constructor; simpl; subst s1.
  - auto.
  - intros k wk H. lookup_cases H; [simpl|]; eapply (inv_id s ws I); eauto.
  - intros k wk H Hp. lookup_cases H; [simpl in Hp; congruence | eapply inv_loading; eauto].
  - intros k wk H Hp. lookup_cases H; [simpl in Hp; congruence | eapply inv_crossing; eauto].
  - intros q' m Hm. rewrite Hd in Hm. apply Hold in Hm as [Hm Hne].
    destruct (inv_queued s ws I q' m Hm) as (k & wk & Ek & Hk & Hrest).
    exists k, wk. split; [assumption|]. split; [|assumption].
    rewrite list_lookup_insert_ne; [assumption|]. intros ->. lia.
  - intros q'. rewrite Hd. destruct (decide (q' = q)) as [->|Hne].
    + pose proof (inv_nodup s ws I q) as Hnd. rewrite E in Hnd. simpl in Hnd.
      eapply NoDup_cons_1_2. eassumption.
    + apply (inv_nodup s ws I).
  - intros q'. rewrite Hd. destruct (decide (q' = q)) as [->|Hne].
    + pose proof (inv_sorted s ws I q) as Hs. rewrite E in Hs.
      eapply ascending_tail. eassumption.
    + apply (inv_sorted s ws I).
  - lia.
  - intros _. exists j, (mk_worker (set_my_turn 1 (w_train wj)) (w_pc wj)).
    rewrite list_lookup_insert_eq by assumption.
    split; [reflexivity|]. split; simpl; [lia | auto].
  - intros k l wk wl Hk Hl Hhk Hhl.
    assert (Hall : forall k wk,
      <[j := mk_worker (set_my_turn 1 (w_train wj)) (w_pc wj)]> ws !! k = Some wk ->
      holder wk -> k = j).
    { intros k' wk' H Hh. destruct (decide (j = k')) as [|Hne]; [auto|].
      rewrite list_lookup_insert_ne in H by assumption.
      exfalso. exact (inv_free s ws I Hfree k' wk' H Hh). }
    rewrite (Hall k wk Hk Hhk), (Hall l wl Hl Hhl). reflexivity.
  - rewrite (finished_count_insert ws j wj _ Hj). unfold is_done. simpl.
    rewrite En, (inv_finished s ws I). lia.
  - rewrite En, Ec, Es. apply (inv_counters s ws I).
Qed.

(** Under the invariant a dispatch with a ready train always grants: it
    pops a head whose id is the index of a waiting train. *)
Lemma dispatch_pops (s : sched) (ws : list worker) :
  inv s ws -> any_ready s = true ->
  exists q n next j wj,
    deref q s = n :: next /\
    choose_next_idx_full s = (idx n, assign q next s) /\
    idx n = Z.of_nat j /\ ws !! j = Some wj /\
    w_pc wj = Waiting /\ my_turn (w_train wj) = 0.
Proof.
  intros I Hready.
  destruct (choose_next_spec s (inv_ids_nonneg s ws I)) as [[Hn _]|(q & n & next & E & Hc)].
  - congruence.
  - assert (Hn : In n (deref q s)) by (rewrite E; left; reflexivity).
    destruct (inv_queued s ws I q n Hn) as (j & wj & Ej & Hj & Hpc & Hmt & _).
    exists q, n, next, j, wj. auto 10.
Qed.

Lemma inv_step (sys sys' : system) (ev : event) :
  invariant sys -> step sys ev = Some sys' -> invariant sys'.
Proof.
  unfold invariant. intros I Hstep.
  destruct ev as [i ns|i|i| |]; simpl in Hstep.
  - unfold train_thread in Hstep.
    destruct (trains sys !! i) as [w|] eqn:Hw; [|discriminate].
    destruct (w_pc w) eqn:Hpc; try discriminate.
    injection Hstep as <-. simpl. apply inv_ready; assumption.
  - unfold train_thread in Hstep.
    destruct (trains sys !! i) as [w|] eqn:Hw; [|discriminate].
    destruct (w_pc w) eqn:Hpc; try discriminate.
    destruct (truthy (my_turn (w_train w))) eqn:Hmt; [|discriminate].
    injection Hstep as <-. simpl. apply truthy_true in Hmt.
    apply inv_enter; assumption.
  - unfold train_thread in Hstep.
    destruct (trains sys !! i) as [w|] eqn:Hw; [|discriminate].
    destruct (w_pc w) eqn:Hpc; try discriminate.
    injection Hstep as <-. simpl. apply inv_leave; assumption.
  - unfold dispatcher_main in Hstep.
    destruct (dispatcher_running sys && (trains_finished (sch sys) <? n_trains sys)
              && any_ready (sch sys) && negb (truthy (track_in_use (sch sys)))) eqn:G;
      [|discriminate].
    apply andb_true_iff in G as [G Hfree].
    apply andb_true_iff in G as [_ Hready].
    apply negb_true_iff, truthy_false in Hfree.
    destruct (dispatch_pops _ _ I Hready)
      as (q & n & next & j & wj & E & Hc & Ej & Hj & _).
    rewrite Hc in Hstep.
    destruct (Z.geb_spec (idx n) 0); [|lia].
    rewrite Ej, (grant_in_range _ j wj Hj) in Hstep.
    injection Hstep as <-. simpl.
    apply (inv_grant (sch sys) (trains sys) q n next j wj); assumption.
  - destruct (dispatcher_running sys && (trains_finished (sch sys) >=? n_trains sys));
      [|discriminate].
    injection Hstep as <-. exact I.
Qed.

Lemma inv_run (tr : list event) (sys sys' : system) :
  invariant sys -> run sys tr = Some sys' -> invariant sys'.
Proof.
  revert sys. induction tr as [|ev tr IH]; simpl; intros sys I Hrun.
  - injection Hrun as <-. exact I.
  - destruct (step sys ev) as [sys1|] eqn:Hstep; [|discriminate].
    apply (IH sys1); [eapply inv_step; eassumption | assumption].
Qed.

Lemma run_invariant (roster : list train_t) (tr : list event) (sys : system) :
  roster_ok roster -> run (init_system roster) tr = Some sys -> invariant sys.
Proof. intros Hok. apply inv_run. apply inv_init. exact Hok. Qed.

Lemma step_length (sys sys' : system) (ev : event) :
  step sys ev = Some sys' -> length (trains sys') = length (trains sys).
Proof.
  destruct ev as [i ns|i|i| |]; simpl; unfold train_thread, dispatcher_main, grant.
  1-3: destruct (trains sys !! i) as [w|]; [|discriminate];
       destruct (w_pc w); try discriminate;
       try (destruct (truthy (my_turn (w_train w))); [|discriminate]);
       intros [= <-]; simpl; apply length_insert.
  - destruct (_ && _ && _ && _); [|discriminate].
    destruct (choose_next_idx_full (sch sys)) as [ix s].
    destruct (ix >=? 0).
    + destruct (_ && _); [|discriminate].
      destruct (trains sys !! Z.to_nat ix); [|discriminate].
      intros [= <-]. simpl. apply length_insert.
    + intros [= <-]. reflexivity.
  - destruct (_ && _); [|discriminate]. intros [= <-]. reflexivity.
Qed.

(** The counters stay within the range of a C [int] as long as the
    roster does: they never exceed the number of trains. *)
Lemma run_counters_bounded (roster : list train_t) (tr : list event) (sys : system) :
  roster_ok roster -> run (init_system roster) tr = Some sys ->
  0 <= same_dir_streak (sch sys) <= trains_finished (sch sys) /\
  trains_finished (sch sys) <= n_trains sys.
Proof.
  intros Hok Hrun. pose proof (run_invariant _ _ _ Hok Hrun) as I.
  split; [apply (inv_counters _ _ I)|].
  rewrite (inv_finished _ _ I). unfold n_trains.
  apply finished_count_bounds.
Qed.

(** ** Mutual exclusion *)

(** C1.  In every state of every run, from every roster: at most one
    train is in the Crossing state; a train that is crossing has the
    track marked in use; when [track_in_use] is set exactly one train
    holds the grant; and the dispatcher only ever grants from a state in
    which [track_in_use] is clear, setting it as it grants. *)
Theorem mutual_exclusion (roster : list train_t) (tr : list event) (sys : system) :
  roster_ok roster -> run (init_system roster) tr = Some sys ->
  (forall i j wi wj, trains sys !! i = Some wi -> trains sys !! j = Some wj ->
     w_pc wi = Crossing -> w_pc wj = Crossing -> i = j) /\
  (forall i w, trains sys !! i = Some w -> w_pc w = Crossing ->
     track_in_use (sch sys) <> 0) /\
  (track_in_use (sch sys) <> 0 ->
     exists i w, trains sys !! i = Some w /\ holder w /\
       forall j w', trains sys !! j = Some w' -> holder w' -> j = i) /\
  (forall sys', step sys EvDispatch = Some sys' ->
     track_in_use (sch sys) = 0 /\ track_in_use (sch sys') = 1).
Proof.
  intros Hok Hrun. pose proof (run_invariant _ _ _ Hok Hrun) as I.
  unfold invariant in I.
  assert (Hcross : forall i w, trains sys !! i = Some w -> w_pc w = Crossing -> holder w).
  { intros i w Hw Hpc. split; [eapply inv_crossing; eauto | auto]. }
  split; [|split; [|split; [|intros sys' H; split]]].
  - intros i j wi wj Hi Hj Hpi Hpj.
    eapply (inv_unique _ _ I); eauto.
  - intros i w Hw Hpc Hfree.
    exact (inv_free _ _ I Hfree i w Hw (Hcross i w Hw Hpc)).
  - intros Hheld. destruct (inv_held _ _ I Hheld) as (i & w & Hw & Hh).
    exists i, w. split; [assumption|]. split; [assumption|].
    intros j w' Hj Hh'. eapply (inv_unique _ _ I); eauto.
  - simpl in H. unfold dispatcher_main in H.
    destruct (_ && _ && _ && _) eqn:G; [|discriminate].
    apply andb_true_iff in G as [_ Hfree].
    apply negb_true_iff, truthy_false in Hfree. exact Hfree.
  - pose proof (inv_step _ _ _ I H) as I'.
    simpl in H. unfold dispatcher_main in H.
    destruct (_ && _ && _ && _) eqn:G; [|discriminate].
    apply andb_true_iff in G as [G _].
    apply andb_true_iff in G as [_ Hready].
    destruct (dispatch_pops _ _ I Hready)
      as (q & n & next & j & wj & E & Hc & Ej & Hj & _).
    rewrite Hc in H.
    destruct (Z.geb_spec (idx n) 0); [|lia].
    rewrite Ej, (grant_in_range _ j wj Hj) in H.
    injection H as <-. reflexivity.
Qed.

Lemma mutual_exclusion_witness :
  let roster := [mk_train 0 WEST 0 1 1 (-1) 0; mk_train 1 EAST 1 1 1 (-1) 0] in
  let tr := [EvReady 1 100; EvReady 0 100; EvDispatch; EvEnter 0] in
  exists sys, run (init_system roster) tr = Some sys /\
    (forall i j wi wj, trains sys !! i = Some wi -> trains sys !! j = Some wj ->
       w_pc wi = Crossing -> w_pc wj = Crossing -> i = j) /\
    track_in_use (sch sys) = 1.
Proof.
  intros roster tr.
  assert (Hok : roster_ok roster).
  { intros [|[|[|i]]] t H; simpl in H; try discriminate;
      injection H as <-; simpl; auto. }
  destruct (run (init_system roster) tr) as [sys|] eqn:Hrun; [|discriminate].
  exists sys. split; [reflexivity|].
  split; [exact (proj1 (mutual_exclusion roster tr sys Hok Hrun))|].
  vm_compute in Hrun. injection Hrun as <-. reflexivity.
Defined.

(** ** Bootstrap rule *)

Lemma run_crossed (roster : list train_t) (tr : list event) (sys : system) :
  roster_ok roster -> run (init_system roster) tr = Some sys ->
  0 < trains_finished (sch sys) -> have_ever_crossed (sch sys) <> 0.
Proof.
  intros Hok Hrun Hpos. pose proof (run_invariant _ _ _ Hok Hrun) as I.
  destruct (inv_counters _ _ I) as [_ [[_ ?]|[? _]]]; lia.
Qed.

(** C2.  While no train has ever crossed, if a West queue is not empty
    the selection pops the head of West-High when that queue is not
    empty and the head of West-Low otherwise, whatever the East queues
    hold.  Once [have_ever_crossed] is set the selection is exactly the
    rest of the function, and in a run [have_ever_crossed] is set as soon
    as one crossing has completed. *)
Theorem bootstrap_rule :
  (forall s, have_ever_crossed s = 0 ->
     (forall n next, west_high s = n :: next ->
        choose_next_idx_full s = (idx n, assign WEST_HIGH next s)) /\
     (forall n next, west_high s = [] -> west_low s = n :: next ->
        choose_next_idx_full s = (idx n, assign WEST_LOW next s))) /\
  (forall s, have_ever_crossed s <> 0 ->
     choose_next_idx_full s = choose_after_bootstrap s) /\
  (forall roster tr sys,
     roster_ok roster -> run (init_system roster) tr = Some sys ->
     0 < trains_finished (sch sys) ->
     choose_next_idx_full (sch sys) = choose_after_bootstrap (sch sys)).
Proof.
  assert (Hoff : forall s, have_ever_crossed s <> 0 ->
            choose_next_idx_full s = choose_after_bootstrap s).
  { intros s Hs. unfold choose_next_idx_full, rule_bootstrap.
    apply truthy_true in Hs. rewrite Hs. reflexivity. }
  split; [|split].
  - intros s Hs.
    assert (Ht : negb (truthy (have_ever_crossed s)) = true).
    { apply negb_true_iff, truthy_false. assumption. }
    unfold choose_next_idx_full, rule_bootstrap. rewrite Ht.
    split; intros n next.
    + intros E. rewrite (pop_high_then_low_high WEST_HIGH WEST_LOW s n next E).
      reflexivity.
    + intros EH EL. rewrite (pop_high_then_low_low WEST_HIGH WEST_LOW s n next EH EL).
      reflexivity.
  - exact Hoff.
  - intros roster tr sys Hok Hrun Hpos. apply Hoff.
    eapply run_crossed; eassumption.
Qed.

Lemma bootstrap_rule_witness :
  (let s := mk_sched [mk_node 1 50] [] [] [mk_node 0 70] 0 0 0 EAST 0 in
   choose_next_idx_full s = (0, assign WEST_LOW [] s)) /\
  (let s := mk_sched [mk_node 1 50] [] [] [mk_node 0 70] 0 1 1 WEST 1 in
   choose_next_idx_full s = choose_after_bootstrap s) /\
  (let roster := [mk_train 0 WEST 0 1 1 (-1) 0; mk_train 1 EAST 1 1 1 (-1) 0] in
   let tr := [EvReady 0 70; EvDispatch; EvEnter 0; EvLeave 0; EvReady 1 90] in
   exists sys, run (init_system roster) tr = Some sys /\
     choose_next_idx_full (sch sys) = choose_after_bootstrap (sch sys)).
Proof.
  destruct bootstrap_rule as (Hon & Hoff & Hrun).
  split; [|split].
  - intros s. apply (proj2 (Hon s eq_refl) (mk_node 0 70) []); reflexivity.
  - intros s. apply (Hoff s). simpl. lia.
  - intros roster tr.
    assert (Hok : roster_ok roster).
    { intros [|[|[|i]]] t H; simpl in H; try discriminate;
        injection H as <-; simpl; auto. }
    destruct (run (init_system roster) tr) as [sys|] eqn:E; [|discriminate].
    exists sys. split; [reflexivity|].
    apply (Hrun roster tr sys Hok E).
    vm_compute in E. injection E as <-. simpl. lia.
Defined.

(** ** Streak bookkeeping *)

Lemma streak_counts_release (h : list direction_t) (t : train_t) (s : sched) :
  streak_counts h s -> (h = [] -> same_dir_streak s = 0) ->
  streak_counts (dir t :: h) (train_release t s).
Proof.
  intros [Hs Hl] _.
  destruct (train_release_fields t s) as (_ & _ & _ & Hcase).
  split.
  - simpl. destruct (decide (dir t = dir t)); [|congruence].
    destruct h as [|d h'].
    + simpl in *. destruct Hcase as [(_ & _ & ->)|(_ & _ & ->)]; lia.
    + pose proof (Hl d h' eq_refl) as El. simpl in Hs |- *.
      destruct (decide (d = d)); [|congruence].
      destruct Hcase as [(Ed & _ & ->)|(Ed & _ & ->)].
      * rewrite El in Ed. destruct (decide (d = dir t)); [|congruence].
        rewrite Hs. subst d. lia.
      * rewrite El in Ed. destruct (decide (d = dir t)); [congruence|]. reflexivity.
  - intros d h' [= <- _].
    destruct Hcase as [(Ed & -> & _)|(_ & -> & _)]; auto.
Qed.

Lemma deref_push_at_fields (q : queue_ref) (i ns : Z) (s : sched) :
  same_dir_streak (push_at q i ns s) = same_dir_streak s /\
  last_dir (push_at q i ns s) = last_dir s.
Proof. unfold push_at. destruct (assign_fields q (queue_push (deref q s) i ns) s); tauto. Qed.

(** Every step other than a completed crossing leaves the streak and the
    last direction alone. *)
Lemma step_streak_unchanged (sys sys' : system) (ev : event) :
  step sys ev = Some sys' ->
  (forall i, ev <> EvLeave i) ->
  same_dir_streak (sch sys') = same_dir_streak (sch sys) /\
  last_dir (sch sys') = last_dir (sch sys).
Proof.
  intros Hstep Hev.
  destruct ev as [i ns|i|i| |]; simpl in Hstep.
  - unfold train_thread in Hstep.
    destruct (trains sys !! i) as [w|]; [|discriminate].
    destruct (w_pc w); try discriminate.
    injection Hstep as <-. simpl. apply deref_push_at_fields.
  - unfold train_thread in Hstep.
    destruct (trains sys !! i) as [w|]; [|discriminate].
    destruct (w_pc w); try discriminate.
    destruct (truthy _); [|discriminate].
    injection Hstep as <-. auto.
  - exfalso. apply (Hev i). reflexivity.
  - unfold dispatcher_main in Hstep.
    destruct (_ && _ && _ && _); [|discriminate].
    assert (Hsel : forall ix s, choose_next_idx_full (sch sys) = (ix, s) ->
              same_dir_streak s = same_dir_streak (sch sys) /\
              last_dir s = last_dir (sch sys)).
    { intros ix s Hc.
      assert (Hpop : forall q,
                same_dir_streak (snd (pop_at q (sch sys))) = same_dir_streak (sch sys) /\
                last_dir (snd (pop_at q (sch sys))) = last_dir (sch sys)).
      { intros q. unfold pop_at.
        destruct (queue_pop (deref q (sch sys))) as [i next]. simpl.
        destruct (assign_fields q next (sch sys)); tauto. }
      assert (Hphl : forall H L r, pop_high_then_low H L (sch sys) = Some r ->
                same_dir_streak (snd r) = same_dir_streak (sch sys) /\
                last_dir (snd r) = last_dir (sch sys)).
      { intros H L r. unfold pop_high_then_low.
        destruct (_ || _); [|discriminate].
        destruct (nonnull (deref H (sch sys))); [intros [= <-]; apply Hpop|].
        destruct (nonnull (deref L (sch sys))); [intros [= <-]; apply Hpop|].
        discriminate. }
      assert (Hpair : forall A B,
                same_dir_streak (snd (choose_from_pair A B (sch sys))) =
                  same_dir_streak (sch sys) /\
                last_dir (snd (choose_from_pair A B (sch sys))) = last_dir (sch sys)).
      { intros A B. unfold choose_from_pair. cbv zeta.
        destruct (_ && _); [destruct (ready_comes_before _ _ _ _); apply Hpop|].
        destruct (_ >=? _); [apply Hpop|].
        destruct (_ >=? _); [apply Hpop|]. simpl. auto. }
      change s with (snd (ix, s)). rewrite <- Hc.
      unfold choose_next_idx_full, choose_after_bootstrap.
      destruct (rule_bootstrap (sch sys)) as [r|] eqn:E1.
      { unfold rule_bootstrap in E1. destruct (negb _); [|discriminate]. eapply Hphl; eauto. }
      destruct (rule_balancing (sch sys)) as [r|] eqn:E2.
      { unfold rule_balancing in E2. destruct (_ >=? _); [|discriminate].
        destruct (last_dir (sch sys)); eapply Hphl; eauto. }
      unfold rule_normal.
      destruct (_ || _); [apply Hpair|].
      destruct (_ || _); [apply Hpair|]. simpl. auto. }
    destruct (choose_next_idx_full (sch sys)) as [ix s] eqn:Hc.
    destruct (Hsel ix s eq_refl) as [E1 E2].
    destruct (ix >=? 0).
    + destruct (grant ix (trains sys)); [|discriminate].
      injection Hstep as <-. simpl. auto.
    + injection Hstep as <-. simpl. auto.
  - destruct (_ && _); [|discriminate]. injection Hstep as <-. auto.
Qed.

Lemma completed_streak (tr : list event) (sys sys' : system) (h : list direction_t) :
  streak_counts h (sch sys) -> (h = [] -> same_dir_streak (sch sys) = 0) ->
  run sys tr = Some sys' ->
  streak_counts (completed sys tr h) (sch sys').
Proof.
  revert sys h. induction tr as [|ev tr IH]; simpl; intros sys h Hs H0 Hrun.
  - injection Hrun as <-. exact Hs.
  - destruct (step sys ev) as [sys1|] eqn:Hstep; [|discriminate].
    assert (Hkeep : (forall i, ev <> EvLeave i) ->
              streak_counts h (sch sys1) /\ (h = [] -> same_dir_streak (sch sys1) = 0)).
    { intros Hev. destruct (step_streak_unchanged _ _ _ Hstep Hev) as [E1 E2].
      unfold streak_counts. rewrite E1, E2. split; [exact Hs | exact H0]. }
    destruct ev as [i ns|i|i| |];
      try (destruct Hkeep as [Hs1 H01]; [intros ?; discriminate|];
           apply IH; assumption).
    simpl in Hstep. unfold train_thread in Hstep.
    destruct (trains sys !! i) as [w|] eqn:Hw; [|discriminate].
    destruct (w_pc w); try discriminate.
    injection Hstep as <-.
    apply IH; simpl.
    + apply streak_counts_release; assumption.
    + discriminate.
    + assumption.
Qed.

(** C7.  The bookkeeping of a train that has finished crossing: if its
    direction is [last_dir] the streak goes up by one and [last_dir]
    stays, otherwise [last_dir] becomes its direction and the streak
    becomes 1.  Hence in every state of every run the streak is the
    number of consecutive most recent completed crossings that share the
    direction of the last one, which [last_dir] records. *)
Theorem streak_bookkeeping :
  (forall sys i w sys',
     trains sys !! i = Some w -> step sys (EvLeave i) = Some sys' ->
     (dir (w_train w) = last_dir (sch sys) ->
        same_dir_streak (sch sys') = same_dir_streak (sch sys) + 1 /\
        last_dir (sch sys') = last_dir (sch sys)) /\
     (dir (w_train w) <> last_dir (sch sys) ->
        last_dir (sch sys') = dir (w_train w) /\
        same_dir_streak (sch sys') = 1)) /\
  (forall roster tr sys,
     run (init_system roster) tr = Some sys ->
     streak_counts (completed (init_system roster) tr []) (sch sys)).
Proof.
  split.
  - intros sys i w sys' Hw Hstep. simpl in Hstep. unfold train_thread in Hstep.
    rewrite Hw in Hstep. destruct (w_pc w); try discriminate.
    injection Hstep as <-. simpl.
    destruct (train_release_fields (w_train w) (sch sys)) as (_ & _ & _ & Hcase).
    split; intros Hd; destruct Hcase as [(Ed & El & Es)|(Ed & El & Es)];
      try contradiction; auto.
  - intros roster tr sys Hrun.
    apply completed_streak; try assumption.
    + split; [reflexivity | discriminate].
    + reflexivity.
Qed.

Lemma streak_bookkeeping_witness :
  let roster := [mk_train 0 EAST 1 1 1 (-1) 0; mk_train 1 EAST 0 1 1 (-1) 0;
                 mk_train 2 WEST 0 1 1 (-1) 0] in
  let tr := [EvReady 0 10; EvReady 1 10; EvDispatch; EvEnter 0; EvLeave 0;
             EvDispatch; EvEnter 1; EvLeave 1] in
  exists sys, run (init_system roster) tr = Some sys /\
    completed (init_system roster) tr [] = [EAST; EAST] /\
    streak_counts [EAST; EAST] (sch sys) /\
    same_dir_streak (sch sys) = 2.
Proof.
  intros roster tr.
  destruct (run (init_system roster) tr) as [sys|] eqn:E; [|discriminate].
  exists sys. split; [reflexivity|]. split; [reflexivity|].
  pose proof (proj2 streak_bookkeeping roster tr sys E) as H.
  change (completed (init_system roster) tr []) with [EAST; EAST] in H.
  split; [exact H|]. destruct H as [-> _]. reflexivity.
Defined.

(** ** The selection never comes back empty-handed *)

Lemma queued_deref (s : sched) (m : ready_node) :
  In m (queued s) <-> exists q, In m (deref q s).
Proof.
  unfold queued. rewrite !in_app_iff. split.
  - intros [?|[?|[?|?]]];
      [exists EAST_HIGH | exists EAST_LOW | exists WEST_HIGH | exists WEST_LOW]; assumption.
  - intros [[] H]; simpl in H; tauto.
Qed.

Lemma any_ready_false (s : sched) :
  any_ready s = false <->
  east_high s = [] /\ east_low s = [] /\ west_high s = [] /\ west_low s = [].
Proof.
  unfold any_ready. rewrite !orb_false_iff, !nonnull_false. tauto.
Qed.

(** C8.  In a state whose queue ids are indices of the train array, the
    selection returns -1 only if all four queues are empty, and whenever
    some queue is not empty it returns the id of a queued node, which is
    a valid index.  Every state of every run is such a state: under the
    dispatcher's guard the selection returns the index of a train of the
    array that is waiting for its grant. *)
Theorem selection_under_guard :
  (forall s n, (forall m, In m (queued s) -> 0 <= idx m < n) ->
     (fst (choose_next_idx_full s) = -1 ->
        east_high s = [] /\ east_low s = [] /\ west_high s = [] /\ west_low s = []) /\
     (any_ready s = true ->
        0 <= fst (choose_next_idx_full s) < n /\
        exists m, In m (queued s) /\ fst (choose_next_idx_full s) = idx m)) /\
  (forall roster tr sys,
     roster_ok roster -> run (init_system roster) tr = Some sys ->
     any_ready (sch sys) = true ->
     exists j w, fst (choose_next_idx_full (sch sys)) = Z.of_nat j /\
                 trains sys !! j = Some w /\ w_pc w = Waiting /\
                 0 <= Z.of_nat j < n_trains sys).
Proof.
  split.
  - intros s n Hrange.
    assert (Hids : ids_nonneg s) by (intros m Hm; apply Hrange in Hm; lia).
    destruct (choose_next_spec s Hids) as [[Hnone Hc]|(q & m & next & E & Hc)].
    + split; [intros _; apply any_ready_false; assumption | congruence].
    + assert (Hm : In m (queued s)).
      { apply queued_deref. exists q. rewrite E. left. reflexivity. }
      pose proof (Hrange m Hm). rewrite Hc. simpl.
      split; [lia|]. intros _. split; [lia|]. exists m. auto.
  - intros roster tr sys Hok Hrun Hready.
    pose proof (run_invariant _ _ _ Hok Hrun) as I.
    destruct (dispatch_pops _ _ I Hready)
      as (q & n & next & j & wj & E & Hc & Ej & Hj & Hpc & _).
    exists j, wj. rewrite Hc. simpl.
    pose proof (lookup_lt_Some _ _ _ Hj). unfold n_trains.
    repeat split; auto; lia.
Qed.

Lemma selection_under_guard_witness :
  (let s := mk_sched [] [mk_node 1 30] [] [mk_node 0 20] 0 0 0 EAST 0 in
   0 <= fst (choose_next_idx_full s) < 2) /\
  (let roster := [mk_train 0 WEST 0 1 1 (-1) 0; mk_train 1 EAST 0 1 1 (-1) 0] in
   let tr := [EvReady 1 30; EvReady 0 20] in
   exists sys, run (init_system roster) tr = Some sys /\
     exists j w, fst (choose_next_idx_full (sch sys)) = Z.of_nat j /\
                 trains sys !! j = Some w /\ w_pc w = Waiting /\
                 0 <= Z.of_nat j < n_trains sys).
Proof.
  destruct selection_under_guard as [Hstate Hrun].
  split.
  - intros s. apply (Hstate s 2); [|reflexivity].
    intros m Hm. simpl in Hm. destruct Hm as [<-|[<-|[]]]; simpl; lia.
  - intros roster tr.
    assert (Hok : roster_ok roster).
    { intros [|[|[|i]]] t H; simpl in H; try discriminate;
        injection H as <-; simpl; auto. }
    destruct (run (init_system roster) tr) as [sys|] eqn:E; [|discriminate].
    exists sys. split; [reflexivity|].
    apply (Hrun roster tr sys Hok E).
    vm_compute in E. injection E as <-. reflexivity.
Defined.

(** ** Tie-break *)

Lemma pops_head (s : sched) (q : queue_ref) (n m : ready_node) (next : list ready_node) :
  pops s q n -> deref q s = m :: next -> n = m.
Proof. intros (next' & E & _) E'. congruence. Qed.

Lemma tie_break_state (s : sched) (qa qb : queue_ref) (a b : ready_node) :
  ids_nonneg s -> (forall q, ascending (deref q s)) ->
  In a (deref qa s) -> In b (deref qb s) ->
  ready_ns a = ready_ns b -> idx a < idx b ->
  qa = qb \/
  (~ bootstrap_applies s /\ ~ balancing_applies s /\
   (is_high qa = true \/ is_high qb = false)) ->
  ~ pops s qb b.
Proof.
  intros Hids Hsorted Ha Hb Ens Eidx Hcase Hpops.
  assert (Hnle : ~ key_le b a) by (unfold key_le; lia).
  assert (Hmin : forall q m next, deref q s = m :: next -> In a (deref q s) -> key_le m a).
  { intros q m next E Hin. pose proof (Hsorted q) as Hs. rewrite E in Hs, Hin.
    eapply ascending_head_min; eassumption. }
  destruct Hpops as (nextb & Eb & Hc).
  assert (Hp : pops s qb b) by (exists nextb; auto).
  destruct Hcase as [->|(Hboot & Hbal & Hprio)].
  - apply Hnle. eapply Hmin; eassumption.
  - destruct (normal_rule_cases s Hboot Hbal Hids) as [Hhigh Hlow].
    assert (Hleast : forall A B, pops_least_head s A B ->
              (qa = A \/ qa = B) -> False).
    { intros A B (q & n & Hq & Hpn & Hle) Hqa.
      assert (q = qb) by (eapply pops_queue_unique; eassumption). subst q.
      assert (n = b) by (eapply pops_head; eassumption). subst n.
      destruct (deref qa s) as [|m nexta] eqn:Ea; [destruct Ha|].
      apply Hnle. eapply key_le_trans.
      - eapply Hle; eassumption.
      - eapply Hmin; [eassumption|]. rewrite Ea. assumption. }
    destruct (east_high s) as [|eh ?] eqn:Eeh; [destruct (west_high s) as [|wh ?] eqn:Ewh|].
    + assert (Hlow' : pops_least_head s EAST_LOW WEST_LOW).
      { apply Hlow; auto.
        destruct qb; simpl in Eb; try congruence; [left|right]; congruence. }
      apply (Hleast _ _ Hlow').
      destruct qa; simpl in Ha; rewrite ?Eeh, ?Ewh in Ha; try destruct Ha; auto.
    + destruct Hhigh as [Hl Honly]; [right; discriminate|].
      apply (Hleast _ _ Hl).
      destruct (Honly qb b Hp) as [->| ->];
        (destruct Hprio as [Hh|Hh]; [|discriminate Hh]);
        destruct qa; simpl in Hh; try discriminate; auto.
    + destruct Hhigh as [Hl Honly]; [left; discriminate|].
      apply (Hleast _ _ Hl).
      destruct (Honly qb b Hp) as [->| ->];
        (destruct Hprio as [Hh|Hh]; [|discriminate Hh]);
        destruct qa; simpl in Hh; try discriminate; auto.
Qed.

(** C5, as stated, fails: a Low train with the lower id and a High train
    with the higher id, ready at the same instant, are dispatched High
    first. *)
Lemma tie_break_all_pairs_fails :
  ~ (forall roster tr sys qa qb a b,
       roster_ok roster -> run (init_system roster) tr = Some sys ->
       In a (deref qa (sch sys)) -> In b (deref qb (sch sys)) ->
       ready_ns a = ready_ns b -> idx a < idx b ->
       ~ pops (sch sys) qb b).
Proof.
  intros H.
  set (roster := [mk_train 0 EAST 0 1 1 (-1) 0; mk_train 1 EAST 1 1 1 (-1) 0]).
  set (tr := [EvReady 0 500; EvReady 1 500]).
  assert (Hok : roster_ok roster).
  { intros [|[|[|i]]] t Ht; simpl in Ht; try discriminate;
      injection Ht as <-; simpl; auto. }
  destruct (run (init_system roster) tr) as [sys|] eqn:E; [|discriminate].
  apply (H roster tr sys EAST_LOW EAST_HIGH (mk_node 0 500) (mk_node 1 500) Hok E);
    vm_compute in E; injection E as <-; simpl; auto; try lia.
  exists []. split; reflexivity.
Qed.

(** C5, amended.  Two trains wait with identical ready timestamps.  The
    one with the higher id is not the next one dispatched if both wait
    in the same queue, or if the selection is made by the normal rule
    and the lower-id train's priority is not the lower of the two. *)
Theorem tie_break_within_class (roster : list train_t) (tr : list event)
    (sys : system) (qa qb : queue_ref) (a b : ready_node) :
  roster_ok roster -> run (init_system roster) tr = Some sys ->
  In a (deref qa (sch sys)) -> In b (deref qb (sch sys)) ->
  ready_ns a = ready_ns b -> idx a < idx b ->
  qa = qb \/
  (~ bootstrap_applies (sch sys) /\ ~ balancing_applies (sch sys) /\
   (is_high qa = true \/ is_high qb = false)) ->
  ~ pops (sch sys) qb b.
Proof.
  intros Hok Hrun. pose proof (run_invariant _ _ _ Hok Hrun) as I.
  apply tie_break_state.
  - eapply inv_ids_nonneg; eassumption.
  - apply (inv_sorted _ _ I).
Qed.

Lemma tie_break_within_class_witness :
  let roster := [mk_train 0 EAST 1 1 1 (-1) 0; mk_train 1 EAST 1 1 1 (-1) 0] in
  let tr := [EvReady 1 500; EvReady 0 500] in
  exists sys, run (init_system roster) tr = Some sys /\
    east_high (sch sys) = [mk_node 0 500; mk_node 1 500] /\
    ~ pops (sch sys) EAST_HIGH (mk_node 1 500).
Proof.
  intros roster tr.
  assert (Hok : roster_ok roster).
  { intros [|[|[|i]]] t Ht; simpl in Ht; try discriminate;
      injection Ht as <-; simpl; auto. }
  destruct (run (init_system roster) tr) as [sys|] eqn:E; [|discriminate].
  exists sys. split; [reflexivity|].
  assert (Eq : east_high (sch sys) = [mk_node 0 500; mk_node 1 500]).
  { vm_compute in E. injection E as <-. reflexivity. }
  split; [exact Eq|].
  apply (tie_break_within_class roster tr sys EAST_HIGH EAST_HIGH
           (mk_node 0 500) (mk_node 1 500) Hok E).
  - simpl. rewrite Eq. left. reflexivity.
  - simpl. rewrite Eq. right. left. reflexivity.
  - reflexivity.
  - simpl. lia.
  - left. reflexivity.
Defined.

(** ** Parsing a roster line *)































(** ** Reading lines *)

Lemma fgets_bytes_split (n : nat) (stream l r : list ascii) :
  fgets_bytes n stream = (l, r) -> stream = l ++ r.
Proof.
  revert stream l r. induction n as [|n IH]; intros [|c rest] l r; simpl;
    try (intros [= <- <-]; reflexivity).
  destruct (Ascii.eqb c NEWLINE); [intros [= <- <-]; reflexivity|].
  destruct (fgets_bytes n rest) as [l' r'] eqn:E.
  intros [= <- <-]. simpl. f_equal. apply IH. assumption.
Qed.

Lemma fgets_bytes_progress (n : nat) (c : ascii) (rest l r : list ascii) :
  fgets_bytes (S n) (c :: rest) = (l, r) -> (length r <= length rest)%nat.
Proof.
  simpl. destruct (Ascii.eqb c NEWLINE); [intros [= <- <-]; lia|].
  destruct (fgets_bytes n rest) as [l' r'] eqn:E.
  intros [= <- <-]. apply fgets_bytes_split in E. subst rest.
  rewrite length_app. lia.
Qed.

Lemma fgets_loop_cons (fuel : nat) (c : ascii) (rest : list ascii) :
  fgets_loop (S fuel) (c :: rest) =
  c_str (fst (fgets_bytes 255 (c :: rest))) ::
  fgets_loop fuel (snd (fgets_bytes 255 (c :: rest))).
Proof.
  change (fgets_loop (S fuel) (c :: rest)) with
    (let '(l, r) := fgets_bytes 255 (c :: rest) in c_str l :: fgets_loop fuel r).
  destruct (fgets_bytes 255 (c :: rest)). reflexivity.
Qed.

(** The fuel of [fgets_all] is enough: more of it reads the same lines. *)
Lemma fgets_all_fuel (fuel : nat) (stream : list ascii) :
  (length stream <= fuel)%nat -> fgets_loop fuel stream = fgets_all stream.
Proof.
  unfold fgets_all.
  assert (H : forall f1 f2 s, (length s <= f1)%nat -> (length s <= f2)%nat ->
            fgets_loop f1 s = fgets_loop f2 s).
  { induction f1 as [|f1 IH]; intros f2 [|c rest] H1 H2.
    - destruct f2; reflexivity.
    - simpl in H1. lia.
    - destruct f2; reflexivity.
    - destruct f2 as [|f2]; [simpl in H2; lia|].
      rewrite !fgets_loop_cons. f_equal.
      destruct (fgets_bytes 255 (c :: rest)) as [l r] eqn:E.
      apply fgets_bytes_progress in E. simpl in H1, H2 |- *.
      apply IH; lia. }
  intros Hf. apply H; [assumption | lia].
Qed.









Lemma count_lines_blank (lines : list (list ascii)) :
  (forall line, In line lines -> blank_line line = true) -> count_lines lines 0 = 0.
Proof.
  induction lines as [|buf rest IH]; simpl; intros H; [reflexivity|].
  rewrite (H buf) by auto. apply IH. auto.
Qed.



(** ** Loading the roster *)


Lemma parse_line_fields (line : list ascii) (i : Z) (t : train_t) :
  parse_line line i = Some t -> id t = i /\ my_turn t = 0 /\ ready_time_ns t = -1.
Proof.
  unfold parse_line.
  destruct (sscanf_c_d_d line) as [|c|c load|c load cross]; try discriminate.
  destruct (_ || _); [discriminate|].
  repeat (destruct (Ascii.eqb c _); [intros [= <-]; simpl; auto|]).
  discriminate.
Qed.

Lemma parse_loop_roster_ok (lines : list (list ascii)) (count i : Z)
    (acc ts : list train_t) :
  roster_ok acc -> i = Z.of_nat (length acc) ->
  parse_loop count i lines acc = inl ts -> roster_ok ts.
Proof.
  revert i acc. induction lines as [|buf rest IH]; intros i acc Hacc Hi; simpl.
  - destruct (i <? count); intros [= <-]; exact Hacc.
  - destruct (i <? count); [|intros [= <-]; exact Hacc].
    destruct (parse_line buf i) as [t|] eqn:Hp; [|discriminate].
    apply parse_line_fields in Hp as (Hid & Hturn & _).
    apply IH.
    + intros j t' Hj. apply lookup_app_Some in Hj as [Hj|[Hlen Hj]].
      * apply (Hacc j t' Hj).
      * apply list_lookup_singleton_Some in Hj as [Hj <-].
        split; [lia | assumption].
    + rewrite length_app. simpl. lia.
Qed.

(** A roster that [load_trains] accepts numbers its trains by array
    index and has granted none of them. *)
Lemma load_trains_roster_ok (file : option (list ascii)) (calloc_ok : bool)
    (ts : list train_t) :
  g_trains (load_trains file calloc_ok) = Some ts -> roster_ok ts.
Proof.
  unfold load_trains. destruct file as [stream|]; [|discriminate].
  destruct (_ =? 0); [discriminate|].
  destruct (negb calloc_ok); [discriminate|].
  destruct (parse_loop _ 0 (fgets_all stream) []) as [ts'|[k buf]] eqn:E; [|discriminate].
  intros [= <-]. eapply parse_loop_roster_ok; [| |exact E].
  - intros j t Hj. destruct j; discriminate.
  - reflexivity.
Qed.




(** ** The empty roster *)

Lemma load_trains_blank (stream : list ascii) (calloc_ok : bool) :
  (forall line, In line (fgets_all stream) -> blank_line line = true) ->
  load_trains (Some stream) calloc_ok = mk_load 0 None 0 None.
Proof.
  intros Hblank. unfold load_trains.
  rewrite (count_lines_blank _ Hblank). reflexivity.
Qed.

Lemma run_empty_roster (tr : list event) (sys : system) :
  run (init_system []) tr = Some sys -> tr = [] \/ tr = [EvDispatcherExit].
Proof.
  destruct tr as [|ev tr]; [auto|]. right.
  destruct ev as [i ns|i|i| |]; simpl in H; try discriminate.
  destruct tr as [|ev tr]; [reflexivity|].
  destruct ev as [i ns|i|i| |]; simpl in H; discriminate.
Qed.

(** C10.  For a file without a non-blank line [load_trains] returns 0
    with [n_trains = 0] and a [NULL] array; [main] then starts the
    dispatcher alone.  From there the dispatcher cannot dispatch, since
    its loop guard is false at once; its only step is to return, after
    which [main] returns 0. *)
Theorem empty_roster_run (stream : list ascii) (calloc_ok : bool) :
  (forall line, In line (fgets_all stream) -> blank_line line = true) ->
  load_trains (Some stream) calloc_ok = mk_load 0 None 0 None /\
  (forall e, argc e = 2 -> output_opens e = true -> input_file e = Some stream ->
             dispatcher_starts e = true -> main_startup e = Launched []) /\
  step (init_system []) EvDispatch = None /\
  (forall tr sys, run (init_system []) tr = Some sys ->
                  tr = [] \/ tr = [EvDispatcherExit]) /\
  (exists final, run (init_system []) [EvDispatcherExit] = Some final /\
                 main_exit final = Some 0).
Proof.
  intros Hblank. split; [apply load_trains_blank; assumption|].
  split; [|split; [reflexivity|split; [exact run_empty_roster|]]].
  - intros e Hargc Hout Hfile Hdisp. unfold main_startup.
    rewrite Hargc, Hout, Hfile, Hdisp.
    rewrite (load_trains_blank stream (calloc_succeeds e) Hblank). simpl.
    destruct (Z.ltb_spec (Z.of_nat (trains_started e)) 0); [lia | reflexivity].
  - eexists. split; reflexivity.
Qed.

Lemma empty_roster_run_witness :
  let stream := [" "%char; NEWLINE; NEWLINE; TAB; " "%char] in
  load_trains (Some stream) true = mk_load 0 None 0 None /\
  main_startup (mk_env 2 true (Some stream) true true 0) = Launched [].
Proof.
  intros stream.
  assert (Hblank : forall line, In line (fgets_all stream) -> blank_line line = true).
  { intros line Hin. vm_compute in Hin.
    destruct Hin as [<-|[<-|[<-|[]]]]; reflexivity. }
  destruct (empty_roster_run stream true Hblank) as (Hload & Hmain & _).
  split; [exact Hload|].
  apply Hmain; reflexivity.
Defined.
